(** * bluesky-team-check: the lookup pipeline of [src/App.tsx]

    A shallow embedding of the resource fetcher of [App] (handle
    resolution, batched relationship queries, aggregation), of the
    [isFollowed] selector and of the two array helpers [mapDefined] and
    [chunked], with the properties the specification states about them.

    Conventions of the embedding.
    - A JavaScript array is a [list]; its [length] is bounded by
      [max_array_length] = 2^32 - 1 (ECMA-262, array exotic objects: an
      array index is below 2^32 - 1), a bound the helpers can only meet
      through [push].
    - A [number] that holds an integer is a [Z].  For [chunked] this
      agrees with the floating-point run: with [size >= 1] every sum
      [i + size] the loop forms is [size] itself or is below 2^33, hence
      exact; with [size <= 0] the index stays [<= 0], where the loop test
      holds and every slice after the first is empty whatever the rounding
      of [i + size].
    - A statement that completes is a [completion]: it returns a value or
      throws.  A loop that may run on is given fuel; [None] means that the
      fuel ran out before the loop completed.
    - An asynchronous call is an entry of the request trace together with
      the completion the network eventually gives it. *)

From Stdlib Require Import Ascii.
From stdpp Require Import base numbers list strings.

Local Open Scope Z_scope.

(** ** Exceptions and completions *)

Inductive error : Type :=
  | RangeError                              (* "Invalid array length" *)
  | XRPCError (name message : string)       (* error response of the service *)
  | OtherError (description : string).      (* network failure, abort, ... *)

Inductive completion (A : Type) : Type :=
  | Returned (value : A)
  | Thrown (e : error).
Arguments Returned {A} value.
Arguments Thrown {A} e.

#[global] Instance Returned_inj {A} : Inj (=) (=) (@Returned A).
Proof. by intros x y [= ->]. Qed.

(** ** Array primitives used by the helpers *)

Definition max_array_length : Z := 4294967295.

(** [is_array l]: [l] is the content of a JavaScript array. *)
Definition is_array {T} (l : list T) : Prop :=
  Z.of_nat (length l) ≤ max_array_length.

(** [Array.prototype.push] with one argument: the new length is stored
    last, and storing a length above 2^32 - 1 throws RangeError (ECMA-262,
    ArraySetLength). *)
Definition push {T} (arr : list T) (x : T) : completion (list T) :=
  if Z.of_nat (length arr) <? max_array_length
  then Returned (arr ++ [x])
  else Thrown RangeError.

(** Relative index of [Array.prototype.slice]: a negative argument counts
    from the end, and the result is clamped to [0 .. len]. *)
Definition relative_index (len k : Z) : Z :=
  if k <? 0 then Z.max (len + k) 0 else Z.min k len.

(** [arr.slice(start, end)]: the elements from the relative start up to,
    and without, the relative end. *)
Definition slice {T} (arr : list T) (start end_ : Z) : list T :=
  let len := Z.of_nat (length arr) in
  let k := relative_index len start in
  let final := relative_index len end_ in
  take (Z.to_nat (final - k)) (drop (Z.to_nat k) arr).

(** ** [chunked] (App.tsx, lines 189-197)

<<
  const chunks: T[][] = [];
  for (let i = 0, il = arr.length; i < il; i += size) {
    chunks.push(arr.slice(i, i + size));
  }
  return chunks;
>> *)

Record chunked_state (T : Type) : Type :=
  { loop_i : Z; loop_chunks : list (list T) }.
Arguments loop_i {T} _.
Arguments loop_chunks {T} _.

Inductive loop_step (S R : Type) : Type :=
  | Continue (next : S)
  | Break (result : R)
  | Raise (e : error).
Arguments Continue {S R} next.
Arguments Break {S R} result.
Arguments Raise {S R} e.

(** One evaluation of the loop test and, when it holds, of the body and
    of the increment. *)
Definition chunked_step {T} (arr : list T) (size il : Z)
    (st : chunked_state T) : loop_step (chunked_state T) (list (list T)) :=
  if loop_i st <? il then
    match push (loop_chunks st) (slice arr (loop_i st) (loop_i st + size)) with
    | Returned chunks' =>
        Continue {| loop_i := loop_i st + size; loop_chunks := chunks' |}
    | Thrown e => Raise e
    end
  else Break (loop_chunks st).

Fixpoint chunked_loop {T} (fuel : nat) (arr : list T) (size il : Z)
    (st : chunked_state T) : option (completion (list (list T))) :=
  match fuel with
  | O => None
  | S fuel' =>
      match chunked_step arr size il st with
      | Continue st' => chunked_loop fuel' arr size il st'
      | Break chunks => Some (Returned chunks)
      | Raise e => Some (Thrown e)
      end
  end.

Definition chunked_init (T : Type) : chunked_state T :=
  {| loop_i := 0; loop_chunks := [] |}.

Definition chunked {T} (fuel : nat) (arr : list T) (size : Z)
    : option (completion (list (list T))) :=
  chunked_loop fuel arr size (Z.of_nat (length arr)) (chunked_init T).

(** The loop states that an execution of [chunked arr size] goes through. *)
Inductive chunked_reaches {T} (arr : list T) (size : Z)
    : chunked_state T → Prop :=
  | reaches_init : chunked_reaches arr size (chunked_init T)
  | reaches_step st st' :
      chunked_reaches arr size st →
      chunked_step arr size (Z.of_nat (length arr)) st = Continue st' →
      chunked_reaches arr size st'.


(** ** [mapDefined] (App.tsx, lines 173-187)

<<
  var mapped: R[] = [];
  for (; idx < len; idx++) {
    if ((temp = mapper(array[idx])) !== undefined) mapped.push(temp);
  }
  return mapped;
>>
    A mapper result is an [option]: [None] is [undefined].  The loop visits
    [array[idx]] for [idx = 0 .. len - 1]; the list argument of
    [mapDefined_loop] is the part of the array from [idx] on. *)

Fixpoint mapDefined_loop {T R} (rest : list T) (mapper : T → option R)
    (mapped : list R) : completion (list R) :=
  match rest with
  | [] => Returned mapped
  | x :: rest' =>
      match mapper x with
      | Some temp =>
          match push mapped temp with
          | Returned mapped' => mapDefined_loop rest' mapper mapped'
          | Thrown e => Thrown e
          end
      | None => mapDefined_loop rest' mapper mapped
      end
  end.

Definition mapDefined {T R} (array : list T) (mapper : T → option R)
    : completion (list R) :=
  mapDefined_loop array mapper [].

(** ** Data of the remote service *)

Definition DID : Type := string.

(** Output of [com.atproto.identity.resolveHandle]. *)
Record resolveHandle_output : Type := { did : DID }.

Definition relationship_type : string :=
  "app.bsky.graph.defs#relationship".

(** Modelled from the spec: the record shapes of the [relationships] array.
    Their declarations live in the client package
    ([@externdefs/bluesky-client/atp-schema]), which is not part of the
    sources.  Section 6 of the specification: each record is one of several
    shapes tagged by a type discriminator; only the relationship shape
    carries a boolean [followedBy] flag and a [did] field. *)
Inductive relation : Type :=
  | Relationship (did : DID) (followedBy : bool)
  | OtherRecord (type_ : string).

(** The three property reads of the mapper, lines 69-70; a property that a
    record does not carry reads as [undefined]. *)
Definition relation_type (r : relation) : string :=
  match r with
  | Relationship _ _ => relationship_type
  | OtherRecord type_ => type_
  end.

Definition relation_followedBy (r : relation) : option bool :=
  match r with
  | Relationship _ followedBy => Some followedBy
  | OtherRecord _ => None
  end.

Definition relation_did (r : relation) : option DID :=
  match r with
  | Relationship did _ => Some did
  | OtherRecord _ => None
  end.

(** Truthiness of a boolean property that may be absent. *)
Definition truthy (v : option bool) : bool :=
  match v with
  | Some b => b
  | None => false
  end.

(** Output of [app.bsky.graph.getRelationships]. *)
Record getRelationships_output : Type := { relationships : list relation }.

(** ** Requests and the network *)

(** The abort signal handed out by [makeAbortable] for one run. *)
Definition AbortSignal : Type := nat.

(** A request issued through [agent.rpc.get], with its parameters. *)
Inductive call : Type :=
  | ResolveHandle (signal : AbortSignal) (handle : string)
  | GetRelationships (signal : AbortSignal) (actor : DID) (others : list DID).

(** What the service answers.  A relationship query is identified by its
    position among the queries of the run, so that equal requests may be
    answered differently. *)
Record network : Type :=
  { resolveHandle : AbortSignal → string → completion resolveHandle_output;
    getRelationships :
      nat → AbortSignal → DID → list DID → completion getRelationships_output }.

(** State of a promise. *)
Inductive promise_state (A : Type) : Type :=
  | Pending
  | Fulfilled (value : A)
  | Rejected (reason : error).
Arguments Pending {A}.
Arguments Fulfilled {A} value.
Arguments Rejected {A} reason.

(** ** [Promise.all]

    [outcomes] are the completions the input promises settle with and
    [order] lists the indices of the input promises in the order in which
    they settle (a promise that is absent from [order] has not settled).
    [values] is the result array under construction and [remaining] the
    count of elements still awaited.  The first rejection settles the
    result; a fulfilment stores its value and fulfils the result when it
    was the last one awaited. *)
Fixpoint promise_all_loop {A} (outcomes : list (completion A))
    (order : list nat) (values : list (option A)) (remaining : nat)
    : promise_state (list A) :=
  match order with
  | [] => Pending
  | k :: order' =>
      match outcomes !! k, values !! k with
      | Some (Returned v), Some None =>
          let values' := <[k := Some v]> values in
          if (remaining =? 1)%nat
          then Fulfilled (omap id values')
          else promise_all_loop outcomes order' values' (remaining - 1)%nat
      | Some (Thrown e), Some None => Rejected e
      | _, _ => promise_all_loop outcomes order' values remaining
      end
  end.

Definition promise_all {A} (outcomes : list (completion A))
    (order : list nat) : promise_state (list A) :=
  match outcomes with
  | [] => Fulfilled []
  | _ => promise_all_loop outcomes order
           (replicate (length outcomes) None) (length outcomes)
  end.

(** [Array.prototype.flatMap] with a callback that may throw. *)
Fixpoint flatMap {A B} (f : A → completion (list B)) (l : list A)
    : completion (list B) :=
  match l with
  | [] => Returned []
  | x :: l' =>
      match f x with
      | Returned ys =>
          match flatMap f l' with
          | Returned zs => Returned (ys ++ zs)
          | Thrown e => Thrown e
          end
      | Thrown e => Thrown e
      end
  end.

(** ** The resource fetcher (App.tsx, lines 38-76) *)

(** Lines 41-54: the identifier of the actor, with the requests issued to
    obtain it. *)
Definition resolve (net : network) (signal : AbortSignal) (actor : string)
    : list call * completion DID :=
  if String.prefix "did:" actor then ([], Returned actor)
  else
    ([ResolveHandle signal actor],
     match resolveHandle net signal actor with
     | Returned response => Returned (did response)
     | Thrown e => Thrown e
     end).

(** Lines 56-64: one relationship query per chunk, issued when the chunk
    is mapped, before anything is awaited. *)
Definition promises (signal : AbortSignal) (did : DID)
    (chunks : list (list (DID * string))) : list call :=
  (λ chunk, GetRelationships signal did (fst <$> chunk)) <$> chunks.

(** The completions these queries settle with. *)
Definition promise_outcomes (net : network) (signal : AbortSignal) (did : DID)
    (chunks : list (list (DID * string)))
    : list (completion getRelationships_output) :=
  imap (λ k chunk, getRelationships net k signal did (fst <$> chunk)) chunks.

(** Lines 68-72: the callback given to [mapDefined]. *)
Definition followed_mapper (relation : relation) : option DID :=
  if String.eqb (relation_type relation) relationship_type
     && truthy (relation_followedBy relation)
  then relation_did relation
  else None.

(** Lines 67-73. *)
Definition followed (responses : list getRelationships_output)
    : completion (list DID) :=
  flatMap (λ response, mapDefined (relationships response) followed_mapper)
          responses.

(** Settlement of an [async] function body that completed. *)
Definition settle {A} (c : completion A) : promise_state A :=
  match c with
  | Returned v => Fulfilled v
  | Thrown e => Rejected e
  end.

(** The fetcher, for a roster [members]: the requests it issues and the
    state its promise ends in.  [order] is the order in which the
    relationship queries settle. *)
Definition fetcher (fuel : nat) (net : network) (order : list nat)
    (signal : AbortSignal) (members : list (DID * string)) (actor : string)
    : option (list call * promise_state (list DID)) :=
  match resolve net signal actor with
  | (calls, Thrown e) => Some (calls, Rejected e)
  | (calls, Returned did) =>
      match chunked fuel members 30 with
      | None => None
      | Some (Thrown e) => Some (calls, Rejected e)
      | Some (Returned chunks) =>
          Some (calls ++ promises signal did chunks,
                match promise_all (promise_outcomes net signal did chunks) order with
                | Pending => Pending
                | Rejected e => Rejected e
                | Fulfilled responses => settle (followed responses)
                end)
      end
  end.

(** Lines 14-31: the roster. *)
Definition members : list (DID * string) :=
  [ ("did:plc:3jpt2mvvsumj2r7eqk4gzzjz", "esb.lol");
    ("did:plc:44ybard66vv44zksje25o7dz", "bnewbold.net");
    ("did:plc:fgsn4gf2dlgnybo4nbej5b2s", "anshnanda.com");
    ("did:plc:fpruhuo22xkm5o7ttr2ktxdo", "danabra.mov");
    ("did:plc:l3rouwludahu3ui3bt66mfvj", "divy.zone");
    ("did:plc:oisofpd7lj26yvgiivf3lxsi", "haileyok.com");
    ("did:plc:oky5czdrnfjpqslsw2a5iclo", "jay.bsky.team");
    ("did:plc:q6gjnaw2blty4crticxkmujt", "jaz.bsky.social");
    ("did:plc:qjeavhlw222ppsre4rscd3n2", "rose.bsky.team");
    ("did:plc:ragtjsm2j2vknwkz3zp4oxrd", "pfrazee.com");
    ("did:plc:tl7zqgil2irwndwojsxszceb", "jessica.bsky.team");
    ("did:plc:tpg43qhh4lw4ksiffs4nbda3", "jacob.gold");
    ("did:plc:upo6iq6ekh66d4mbhmiy6se4", "foysal.codes");
    ("did:plc:vjug55kidv6sye7ykr5faxxn", "emilyliu.me");
    ("did:plc:vpkhqolt662uhesyj6nxm7ys", "why.bsky.team");
    ("did:plc:yk4dd2qkboz2yv6tpubpc6co", "dholms.xyz") ]%string.

(** The fetcher as [App] runs it. *)
Definition App_fetcher (fuel : nat) (net : network) (order : list nat)
    (signal : AbortSignal) (actor : string)
    : option (list call * promise_state (list DID)) :=
  fetcher fuel net order signal members actor.

(** ** The [isFollowed] selector (App.tsx, lines 78-81) *)

(** A snapshot of the resource: its [state] tag and, in the states that
    have them, [latest] and [error]. *)
Inductive resource : Type :=
  | Unresolved
  | PendingResource
  | Ready (latest : list DID)
  | Refreshing (latest : list DID)
  | Errored (error : error).

Inductive resource_state : Type :=
  | unresolved | pending | ready | refreshing | errored.

Definition state (r : resource) : resource_state :=
  match r with
  | Unresolved => unresolved
  | PendingResource => pending
  | Ready _ => ready
  | Refreshing _ => refreshing
  | Errored _ => errored
  end.

Definition latest (r : resource) : option (list DID) :=
  match r with
  | Ready l | Refreshing l => Some l
  | _ => None
  end.

Definition EMPTY_ARRAY : list DID := [].

(** [array.includes(did)]. *)
Definition includes (array : list DID) (d : DID) : bool :=
  existsb (String.eqb d) array.

(** Line 79, the source of the selector:
    [resource.state === 'ready' ? resource.latest : EMPTY_ARRAY].  In state
    [ready] the property [latest] is defined. *)
Definition isFollowed_source (r : resource) : list DID :=
  match state r, latest r with
  | ready, Some array => array
  | _, _ => EMPTY_ARRAY
  end.

(** [createSelector(source, fn)] answers [fn(key, source())]. *)
Definition isFollowed (r : resource) (d : DID) : bool :=
  includes (isFollowed_source r) d.


(** ** Reference definitions the helpers are compared with *)

(** The [k]-th block of [n] consecutive elements of [l]. *)
Definition nth_chunk {T} (l : list T) (n k : nat) : list T :=
  take n (drop (k * n) l).

(** Number of blocks of size [size] needed to cover [len] elements. *)
Definition chunk_count (len size : Z) : nat :=
  Z.to_nat ((len + size - 1) / size).

(** State of the loop of [chunked] after [k] iterations with a positive
    [size]. *)
Definition chunked_after {T} (arr : list T) (size : Z) (k : nat)
    : chunked_state T :=
  {| loop_i := Z.of_nat k * size;
     loop_chunks := nth_chunk arr (Z.to_nat size) <$> seq 0 k |}.

(** A record that is of the relationship shape and is flagged as
    followed-by, with its identifier. *)
Definition is_followed_relationship (r : relation) (d : DID) : Prop :=
  relation_type r = relationship_type
  ∧ relation_followedBy r = Some true
  ∧ relation_did r = Some d.

(** The specification's [collect]: [f item] for every item where [f]
    produced a present value, in input order, skipping absent results. *)
Fixpoint collect {T R} (items : list T) (f : T → option R) : list R :=
  match items with
  | [] => []
  | item :: items' =>
      match f item with
      | Some r => r :: collect items' f
      | None => collect items' f
      end
  end.

(** The identifiers a batch response contributes according to the
    specification: those of its relationship records flagged followed-by. *)
Definition followers_of (response : getRelationships_output) : list DID :=
  collect (relationships response)
          (λ r, match r with
                | Relationship d true => Some d
                | _ => None
                end).

Definition is_ResolveHandle (c : call) : bool :=
  match c with
  | ResolveHandle _ _ => true
  | GetRelationships _ _ _ => false
  end.

(** Number of elements of the result array of [Promise.all] that are still
    awaited. *)
Definition pending_count {A} (values : list (option A)) : nat :=
  length (filter (λ mv, mv = None) values).

(** The values stored so far are those the input promises were fulfilled
    with. *)
Definition stored_values {A} (outcomes : list (completion A))
    (values : list (option A)) : Prop :=
  Forall2 (λ o mv, ∀ v, mv = Some v → o = Returned v) outcomes values.

(** ** The end-to-end scenario of the specification (section 8)

    Roster [("did:1", "alice"), ("did:2", "bob")]; the input
    ["carol.test"] resolves to ["did:3"]; the relationship query answers
    that [did:1] follows the actor, that [did:2] does not, and reports one
    record of another shape. *)

Definition scenario_roster : list (DID * string) :=
  [("did:1", "alice"); ("did:2", "bob")]%string.

Definition scenario_net : network :=
  {| resolveHandle := λ _ _, Returned {| did := "did:3" |};
     getRelationships := λ _ _ _ _,
       Returned {| relationships :=
                     [ Relationship "did:1" true;
                       Relationship "did:2" false;
                       OtherRecord "app.bsky.graph.defs#notFoundActor" ] |} |}.

(** The same service when every relationship query is refused. *)
Definition scenario_failing_net : network :=
  {| resolveHandle := λ _ _, Returned {| did := "did:3" |};
     getRelationships := λ _ _ _ _,
       Thrown (XRPCError "InvalidRequest" "actor not found") |}.

(** ** [handleSubmit] (App.tsx, lines 83-90) *)

(** [s.replace(/^@/, '')]: the pattern is anchored at the start and is not
    global, so at most the first character is removed. *)
Definition replace_leading_at (s : string) : string :=
  match s with
  | String "@"%char rest => rest
  | _ => s
  end.

(** The value that [handleSubmit] gives to [setActor], for the content
    [input] of the form field [actor]. *)
Definition handleSubmit (input : string) : string :=
  replace_leading_at input.

(** ** [formatXRPCError] (App.tsx, lines 168-171)

    [(name ? name + ': ' : '') + err.message]; a string is truthy when it
    is not empty. *)
Definition formatXRPCError (name message : string) : string :=
  match name with
  | EmptyString => message
  | String _ _ => name +:+ ": " +:+ message
  end.

(** ** The rendered result (App.tsx, lines 115-149) *)

(** One [div.user] of the list: the [data-followed] attribute of the
    status icon, the [href] of its [use] element, and the handle. *)
Record user_row : Type :=
  { data_followed : bool; use_href : string; user_handle : string }.

(** What is rendered under the form. *)
Inductive view : Type :=
  | ViewNothing                                     (* [null] *)
  | ViewError (text : string)                       (* [<p>{error}</p>] *)
  | ViewUsers (showing : string) (rows : list user_row)
  | ViewLoading.                                    (* [<p>Loading...</p>] *)

(** Lines 118-126.  The conversion ['' + err] of an error that is not an
    [XRPCError] is left to the engine: it is the parameter [to_string]. *)
Definition error_text (to_string : error → string) (err : error) : string :=
  match err with
  | XRPCError name message => formatXRPCError name message
  | _ => to_string err
  end.

(** Lines 133-142, for one member. *)
Definition render_user (r : resource) (member : DID * string) : user_row :=
  {| data_followed := isFollowed r member.1;
     use_href := if isFollowed r member.1
                 then "#ic-baseline-check" else "#ic-baseline-close";
     user_handle := member.2 |}.

(** Lines 115-149, for a roster [members].  [actor] is the value of the
    signal, [None] while it is [undefined]; the empty string is falsy.  The
    tests on [resource.state] are the cases of the snapshot. *)
Definition render (to_string : error → string) (members : list (DID * string))
    (actor : option string) (r : resource) : view :=
  match actor with
  | Some (String _ _ as shown) =>
      match r with
      | Errored err => ViewError (error_text to_string err)
      | Ready _ => ViewUsers shown (render_user r <$> members)
      | _ => ViewLoading
      end
  | _ => ViewNothing
  end.

(** * Properties *)

(** ** Array primitives *)

Section primitives.
Context {T : Type}.
Implicit Types (arr l : list T) (x : T).

Lemma push_below arr x :
  Z.of_nat (length arr) < max_array_length →
  push arr x = Returned (arr ++ [x]).
Proof.
  intros Hlt. unfold push.
  destruct (Z.ltb_spec (Z.of_nat (length arr)) max_array_length); [done | lia].
Qed.

Lemma push_full arr x :
  max_array_length ≤ Z.of_nat (length arr) →
  push arr x = Thrown RangeError.
Proof.
  intros Hge. unfold push.
  destruct (Z.ltb_spec (Z.of_nat (length arr)) max_array_length); [lia | done].
Qed.

Lemma push_inv arr x arr' :
  push arr x = Returned arr' →
  arr' = arr ++ [x] ∧ Z.of_nat (length arr) < max_array_length.
Proof.
  unfold push.
  destruct (Z.ltb_spec (Z.of_nat (length arr)) max_array_length);
    intros [= <-]; done.
Qed.

Lemma push_thrown arr x e : push arr x = Thrown e → e = RangeError.
Proof. unfold push. case_match; congruence. Qed.

(** A slice that starts inside the non-negative range is a [take] of a
    [drop]. *)
Lemma slice_forward arr (start n : Z) :
  0 ≤ start → 0 ≤ n →
  slice arr start (start + n)
  = take (Z.to_nat n) (drop (Z.to_nat start) arr).
Proof.
  intros Hs Hn. unfold slice, relative_index.
  destruct (Z.ltb_spec start 0); [lia |].
  destruct (Z.ltb_spec (start + n) 0); [lia |].
  set (len := Z.of_nat (length arr)).
  destruct (Z_le_gt_dec len start) as [Hout | Hin].
  - rewrite (drop_ge arr (Z.to_nat start)) by (subst len; lia).
    rewrite take_nil.
    rewrite drop_ge by (subst len; lia). by rewrite take_nil.
  - replace (Z.min start len) with start by lia.
    destruct (Z_le_gt_dec (start + n) len) as [Hfit | Hover].
    + f_equal. lia.
    + rewrite !take_ge; [done | |]; rewrite length_drop; subst len; lia.
Qed.

(** A slice whose start is negative and whose end is not after its start
    is empty. *)
Lemma slice_backward arr (start n : Z) :
  start < 0 → n ≤ 0 → slice arr start (start + n) = [].
Proof.
  intros Hs Hn. unfold slice, relative_index.
  destruct (Z.ltb_spec start 0); [| lia].
  destruct (Z.ltb_spec (start + n) 0); [| lia].
  replace (Z.to_nat _) with 0%nat by lia. done.
Qed.
End primitives.

(** ** Blocks of a list *)

Section blocks.
Context {T : Type}.
Implicit Types (l : list T) (n m k : nat).

Lemma concat_nth_chunks l n m :
  concat (nth_chunk l n <$> seq 0 m) = take (m * n) l.
Proof.
  induction m as [| m IH]; [done |].
  rewrite seq_S, fmap_app, concat_app, IH. simpl.
  rewrite app_nil_r. unfold nth_chunk.
  rewrite <- (take_drop (m * n) (take (n + m * n) l)).
  rewrite take_take, skipn_firstn_comm.
  do 2 f_equal; lia.
Qed.

Lemma length_nth_chunk l n k :
  length (nth_chunk l n k) = (n `min` (length l - k * n))%nat.
Proof. unfold nth_chunk. by rewrite length_take, length_drop. Qed.

Lemma lookup_nth_chunks l n m k :
  (k < m)%nat →
  (nth_chunk l n <$> seq 0 m) !! k = Some (nth_chunk l n k).
Proof.
  intros Hk. rewrite list_lookup_fmap, lookup_seq_lt by done. done.
Qed.
End blocks.

(** ** The loop of [chunked] *)

Section chunked_loop.
Context {T : Type}.
Implicit Types (arr : list T) (size : Z) (st : chunked_state T).

(** The test [k * size < il] holds exactly for the first
    [chunk_count il size] values of [k]. *)
Lemma chunk_count_spec (il size : Z) (k : nat) :
  0 ≤ il → 1 ≤ size →
  (Z.of_nat k * size < il ↔ (k < chunk_count il size)%nat).
Proof.
  intros Hil Hsize. unfold chunk_count.
  pose proof (Z.div_mod (il + size - 1) size ltac:(lia)) as Hdm.
  pose proof (Z.mod_pos_bound (il + size - 1) size ltac:(lia)) as Hmod.
  assert (0 ≤ (il + size - 1) / size) by (apply Z.div_pos; lia).
  split; intros Hk.
  - apply Nat2Z.inj_lt. rewrite Z2Nat.id by done. nia.
  - apply Nat2Z.inj_lt in Hk. rewrite Z2Nat.id in Hk by done. nia.
Qed.

Lemma chunked_step_positive arr size (k : nat) :
  is_array arr → 1 ≤ size →
  chunked_step arr size (Z.of_nat (length arr)) (chunked_after arr size k)
  = if decide (k < chunk_count (Z.of_nat (length arr)) size)%nat
    then Continue (chunked_after arr size (S k))
    else Break (nth_chunk arr (Z.to_nat size) <$> seq 0 k).
Proof.
  intros Harr Hsize. unfold chunked_step. simpl.
  pose proof (chunk_count_spec (Z.of_nat (length arr)) size k
                ltac:(lia) Hsize) as Hcount.
  destruct (Z.ltb_spec (Z.of_nat k * size) (Z.of_nat (length arr)))
    as [Hlt | Hge]; case_decide; try tauto; try lia.
  rewrite push_below.
  2:{ rewrite length_fmap, length_seq. unfold is_array in Harr. nia. }
  unfold chunked_after. f_equal. f_equal; [lia |].
  rewrite seq_S, fmap_app. simpl. f_equal. f_equal.
  rewrite slice_forward by lia. unfold nth_chunk. do 2 f_equal. lia.
Qed.

Lemma chunked_loop_positive arr size (fuel k : nat) :
  is_array arr → 1 ≤ size →
  (k ≤ chunk_count (Z.of_nat (length arr)) size)%nat →
  (chunk_count (Z.of_nat (length arr)) size - k < fuel)%nat →
  chunked_loop fuel arr size (Z.of_nat (length arr)) (chunked_after arr size k)
  = Some (Returned (nth_chunk arr (Z.to_nat size)
                      <$> seq 0 (chunk_count (Z.of_nat (length arr)) size))).
Proof.
  intros Harr Hsize. revert k.
  induction fuel as [| fuel IH]; intros k Hk Hfuel; [lia |].
  simpl. rewrite chunked_step_positive by done.
  case_decide.
  - apply IH; lia.
  - by replace k with (chunk_count (Z.of_nat (length arr)) size) by lia.
Qed.

(** With a positive size [chunked] returns the blocks of [arr], as soon
    as the fuel exceeds their number. *)
Lemma chunked_positive arr size (fuel : nat) :
  is_array arr → 1 ≤ size →
  (chunk_count (Z.of_nat (length arr)) size < fuel)%nat →
  chunked fuel arr size
  = Some (Returned (nth_chunk arr (Z.to_nat size)
                      <$> seq 0 (chunk_count (Z.of_nat (length arr)) size))).
Proof.
  intros Harr Hsize Hfuel. unfold chunked.
  change (chunked_init T) with (chunked_after arr size 0).
  apply chunked_loop_positive; [done | done | lia | lia].
Qed.

Lemma chunk_count_le_length (len size : Z) :
  0 ≤ len → 1 ≤ size → (chunk_count len size ≤ Z.to_nat len)%nat.
Proof.
  intros Hlen Hsize.
  destruct (decide (chunk_count len size ≤ Z.to_nat len)%nat) as [| Hn];
    [done | exfalso].
  assert (Z.to_nat len < chunk_count len size)%nat as Hlt by lia.
  apply chunk_count_spec in Hlt; [| done | done].
  rewrite Z2Nat.id in Hlt by done. nia.
Qed.
End chunked_loop.

Section chunked_nonpositive.
Context {T : Type}.
Implicit Types (arr : list T) (size : Z) (st : chunked_state T).

(** More fuel does not change a completed run. *)
Lemma chunked_loop_fuel_mono arr size il (fuel fuel' : nat) st r :
  chunked_loop fuel arr size il st = Some r → (fuel ≤ fuel')%nat →
  chunked_loop fuel' arr size il st = Some r.
Proof.
  revert fuel' st.
  induction fuel as [| fuel IH]; intros fuel' st Hrun Hle; [done |].
  destruct fuel' as [| fuel']; [lia |].
  simpl in *. destruct (chunked_step arr size il st); [| done | done].
  apply IH; [done | lia].
Qed.

(** With a size that is not positive the test [i < il] of a non-empty
    array cannot fail: every iteration appends a chunk, until [push]
    refuses to. *)
Lemma chunked_step_nonpositive arr size il st :
  0 < il → size ≤ 0 → loop_i st ≤ 0 →
  chunked_step arr size il st
  = if decide (Z.of_nat (length (loop_chunks st)) < max_array_length)
    then Continue {| loop_i := loop_i st + size;
                     loop_chunks := loop_chunks st
                                    ++ [slice arr (loop_i st) (loop_i st + size)] |}
    else Raise RangeError.
Proof.
  intros Hil Hsize Hi. unfold chunked_step.
  destruct (Z.ltb_spec (loop_i st) il); [| lia].
  case_decide.
  - by rewrite push_below.
  - by rewrite push_full by lia.
Qed.

Lemma chunked_loop_nonpositive arr size il (fuel : nat) st :
  0 < il → size ≤ 0 → loop_i st ≤ 0 →
  Z.of_nat (length (loop_chunks st)) ≤ max_array_length →
  chunked_loop fuel arr size il st
  = if decide (Z.of_nat fuel + Z.of_nat (length (loop_chunks st))
               ≤ max_array_length)
    then None
    else Some (Thrown RangeError).
Proof.
  intros Hil Hsize. revert st.
  induction fuel as [| fuel IH]; intros st Hi Hlen.
  - simpl. case_decide; [done | lia].
  - cbn [chunked_loop]. rewrite chunked_step_nonpositive by done.
    case_decide as Hroom.
    + rewrite IH; cbn [loop_i loop_chunks].
      * rewrite length_app. cbn [length].
        repeat case_decide; done || lia.
      * lia.
      * rewrite length_app. cbn [length]. lia.
    + case_decide; [lia | done].
Qed.

Lemma chunked_nonpositive arr size (fuel : nat) :
  arr ≠ [] → size ≤ 0 →
  chunked fuel arr size
  = if decide (Z.of_nat fuel ≤ max_array_length)
    then None
    else Some (Thrown RangeError).
Proof.
  intros Harr Hsize. unfold chunked.
  rewrite chunked_loop_nonpositive; cbn [chunked_init loop_i loop_chunks length].
  - repeat case_decide; done || lia.
  - destruct arr; [done | cbn [length]; lia].
  - done.
  - done.
  - unfold max_array_length. lia.
Qed.

Lemma chunked_reaches_nonpositive arr size st :
  arr ≠ [] → size ≤ 0 → chunked_reaches arr size st → loop_i st ≤ 0.
Proof.
  intros Harr Hsize Hreach.
  induction Hreach as [| st st' _ IH Hstep]; [done |].
  rewrite chunked_step_nonpositive in Hstep; [| | done | done].
  - case_decide; [| done]. injection Hstep as <-. cbn [loop_i]. lia.
  - destruct arr; [done | cbn [length]; lia].
Qed.

Lemma chunked_empty size (fuel : nat) :
  chunked (S fuel) (@nil T) size = Some (Returned []).
Proof. done. Qed.
End chunked_nonpositive.

(** ** Claims about [chunked] *)

(** C2.  For every array [items] and every positive integer [n],
    [chunked items n] returns chunks whose concatenation, in order, is
    [items]; every chunk but the last has exactly [n] elements; and the
    [k]-th chunk is the block of [items] that starts at position [k * n],
    so the chunks are contiguous pieces of [items] in their original
    order. *)
Theorem chunked_roundtrip {T} (items : list T) (n : Z) :
  is_array items → 1 ≤ n →
  ∃ chunks : list (list T),
    (∀ fuel : nat, (length items < fuel)%nat →
       chunked fuel items n = Some (Returned chunks))
    ∧ concat chunks = items
    ∧ (∀ (k : nat) (c : list T),
         chunks !! k = Some c → (S k < length chunks)%nat →
         Z.of_nat (length c) = n)
    ∧ (∀ (k : nat) (c : list T),
         chunks !! k = Some c →
         c = take (Z.to_nat n) (drop (k * Z.to_nat n) items)).
Proof.
  intros Harr Hn.
  set (m := chunk_count (Z.of_nat (length items)) n).
  pose proof (chunk_count_le_length (Z.of_nat (length items)) n
                ltac:(lia) Hn) as Hm.
  rewrite Nat2Z.id in Hm. fold m in Hm.
  exists (nth_chunk items (Z.to_nat n) <$> seq 0 m).
  split; [| split; [| split]].
  - intros fuel Hfuel. apply chunked_positive; [done | done |]. fold m. lia.
  - rewrite concat_nth_chunks. apply take_ge.
    destruct (decide (length items ≤ m * Z.to_nat n)%nat) as [| Hlt]; [done |].
    assert (Z.of_nat m * n < Z.of_nat (length items)) as Hlt' by nia.
    apply chunk_count_spec in Hlt'; [| lia | done]. fold m in Hlt'. lia.
  - intros k c Hc Hk. rewrite length_fmap, length_seq in Hk.
    rewrite lookup_nth_chunks in Hc by lia. injection Hc as <-.
    rewrite length_nth_chunk.
    assert (Z.of_nat (S k) * n < Z.of_nat (length items)) as Hin.
    { apply chunk_count_spec; [lia | done | done]. }
    nia.
  - intros k c Hc.
    assert (k < m)%nat as Hk.
    { apply lookup_lt_Some in Hc. by rewrite length_fmap, length_seq in Hc. }
    rewrite lookup_nth_chunks in Hc by done. by injection Hc as <-.
Qed.

(** The chunks of a list of seven elements by three. *)
Lemma chunked_roundtrip_witness :
  ∃ chunks : list (list nat),
    (∀ fuel : nat, (7 < fuel)%nat →
       chunked fuel [1; 2; 3; 4; 5; 6; 7]%nat 3 = Some (Returned chunks))
    ∧ concat chunks = [1; 2; 3; 4; 5; 6; 7]%nat
    ∧ (∀ (k : nat) (c : list nat),
         chunks !! k = Some c → (S k < length chunks)%nat →
         Z.of_nat (length c) = 3)
    ∧ (∀ (k : nat) (c : list nat),
         chunks !! k = Some c →
         c = take (Z.to_nat 3) (drop (k * Z.to_nat 3) [1; 2; 3; 4; 5; 6; 7]%nat)).
Proof.
  apply (chunked_roundtrip [1; 2; 3; 4; 5; 6; 7]%nat 3).
  - unfold is_array, max_array_length. simpl. lia.
  - lia.
Defined.

(** The runs of [chunked] in this model, where memory is unbounded and
    only the length of an array is bounded.  [chunked arr size] returns for
    every array [arr] when [size >= 1], and returns the empty list of
    chunks when [arr] is empty.  For a non-empty [arr] and [size <= 0] the
    loop index never advances past the length of [arr]: the loop test
    never fails, [chunked] never returns, and the run goes on for as long
    as [push] accepts one more chunk.  What ends such a run in an engine
    (its heap is exhausted long before [chunks] reaches
    [max_array_length]) is outside the model. *)
Theorem chunked_termination {T} (arr : list T) (size : Z) :
  (is_array arr → 1 ≤ size →
     ∃ chunks, ∀ fuel : nat, (length arr < fuel)%nat →
       chunked fuel arr size = Some (Returned chunks))
  ∧ (arr = [] → ∀ fuel : nat, chunked (S fuel) arr size = Some (Returned []))
  ∧ (arr ≠ [] → size ≤ 0 →
       (∀ st, chunked_reaches arr size st → loop_i st < Z.of_nat (length arr))
       ∧ (∀ (fuel : nat) chunks, chunked fuel arr size ≠ Some (Returned chunks))
       ∧ (∀ fuel : nat, Z.of_nat fuel ≤ max_array_length →
            chunked fuel arr size = None)
       ∧ (∀ fuel : nat, max_array_length < Z.of_nat fuel →
            chunked fuel arr size = Some (Thrown RangeError))).
Proof.
  split; [| split].
  - intros Harr Hsize.
    exists (nth_chunk arr (Z.to_nat size)
              <$> seq 0 (chunk_count (Z.of_nat (length arr)) size)).
    intros fuel Hfuel. apply chunked_positive; [done | done |].
    pose proof (chunk_count_le_length (Z.of_nat (length arr)) size
                  ltac:(lia) Hsize) as Hm.
    rewrite Nat2Z.id in Hm. lia.
  - intros -> fuel. apply chunked_empty.
  - intros Harr Hsize. split; [| split; [| split]].
    + intros st Hreach.
      pose proof (chunked_reaches_nonpositive arr size st Harr Hsize Hreach).
      destruct arr; [done | cbn [length]; lia].
    + intros fuel chunks. rewrite chunked_nonpositive by done.
      case_decide; done.
    + intros fuel Hfuel. rewrite chunked_nonpositive by done.
      case_decide; [done | lia].
    + intros fuel Hfuel. rewrite chunked_nonpositive by done.
      case_decide; [lia | done].
Qed.

(** ** [mapDefined] *)

Section mapDefined.
Context {T R : Type}.
Implicit Types (array rest : list T) (mapper : T → option R) (mapped : list R).

Lemma collect_omap array mapper : collect array mapper = omap mapper array.
Proof.
  induction array as [| x array IH]; [done |].
  simpl. rewrite IH. by destruct (mapper x).
Qed.

Lemma length_collect array mapper :
  (length (collect array mapper) ≤ length array)%nat.
Proof.
  induction array as [| x array IH]; [done |].
  simpl. destruct (mapper x); simpl; lia.
Qed.

Lemma mapDefined_loop_returned rest mapper mapped out :
  mapDefined_loop rest mapper mapped = Returned out →
  out = mapped ++ collect rest mapper.
Proof.
  revert mapped.
  induction rest as [| x rest IH]; intros mapped Hrun; simpl in *.
  - injection Hrun as <-. by rewrite app_nil_r.
  - destruct (mapper x) as [temp |]; [| by apply IH].
    destruct (push mapped temp) as [mapped' | e] eqn:Hpush; [| done].
    apply push_inv in Hpush as [-> _].
    rewrite (IH _ Hrun). by rewrite <- app_assoc.
Qed.

Lemma mapDefined_loop_thrown rest mapper mapped e :
  mapDefined_loop rest mapper mapped = Thrown e → e = RangeError.
Proof.
  revert mapped.
  induction rest as [| x rest IH]; intros mapped Hrun; simpl in *; [done |].
  destruct (mapper x) as [temp |]; [| by eapply IH].
  destruct (push mapped temp) as [mapped' | e'] eqn:Hpush.
  - by eapply IH.
  - injection Hrun as <-. by eapply push_thrown.
Qed.

(** The loop completes normally as long as the result fits an array. *)
Lemma mapDefined_loop_fits rest mapper mapped :
  Z.of_nat (length mapped + length rest) ≤ max_array_length →
  mapDefined_loop rest mapper mapped = Returned (mapped ++ collect rest mapper).
Proof.
  revert mapped.
  induction rest as [| x rest IH]; intros mapped Hfit; simpl in *.
  - by rewrite app_nil_r.
  - destruct (mapper x) as [temp |]; [| apply IH; lia].
    rewrite push_below by lia.
    rewrite IH; [by rewrite <- app_assoc |].
    rewrite length_app. simpl. lia.
Qed.

Lemma collect_filter array mapper :
  Some <$> collect array mapper = filter is_Some (mapper <$> array).
Proof.
  induction array as [| x array IH]; [done |].
  rewrite fmap_cons. cbn [collect]. destruct (mapper x) as [r |].
  - rewrite filter_cons_True by done. rewrite fmap_cons. by f_equal.
  - rewrite filter_cons_False; [done |]. by intros [? ?].
Qed.
End mapDefined.

(** C3.  For every array and every transform [mapper], [mapDefined]
    returns exactly the present values [mapper item] of the items on which
    [mapper] produced a present value, in input order, skipping the absent
    results (the specification's [collect]); so the output is not longer
    than the input, and it lists the present results in the relative order
    of the input. *)
Theorem mapDefined_collect {T R} (array : list T) (mapper : T → option R) :
  is_array array →
  ∃ mapped : list R,
    mapDefined array mapper = Returned mapped
    ∧ mapped = collect array mapper
    ∧ (∀ r : R, r ∈ mapped ↔ ∃ item, item ∈ array ∧ mapper item = Some r)
    ∧ (length mapped ≤ length array)%nat
    ∧ Some <$> mapped = filter is_Some (mapper <$> array)
    ∧ (Some <$> mapped) `sublist_of` (mapper <$> array).
Proof.
  intros Harr. exists (collect array mapper).
  split; [| split; [done | split; [| split; [| split]]]].
  - unfold mapDefined. by rewrite mapDefined_loop_fits.
  - intros r. rewrite collect_omap. apply list_elem_of_omap.
  - apply length_collect.
  - apply collect_filter.
  - rewrite collect_filter. apply sublist_filter.
Qed.

(** Keeping ten times the even numbers. *)
Lemma mapDefined_collect_witness :
  ∃ mapped : list nat,
    mapDefined [1; 2; 3; 4]%nat
               (λ n, if Nat.even n then Some (n * 10)%nat else None)
    = Returned mapped
    ∧ mapped = [20; 40]%nat.
Proof.
  destruct (mapDefined_collect [1; 2; 3; 4]%nat
              (λ n, if Nat.even n then Some (n * 10)%nat else None))
    as (mapped & Hrun & Hspec & _).
  - unfold is_array, max_array_length. simpl. lia.
  - exists mapped. split; [exact Hrun | exact Hspec].
Defined.

(** ** [Promise.all] *)

Section promise_all.
Context {A : Type}.
Implicit Types (outcomes : list (completion A)) (values : list (option A))
  (order pre post : list nat) (vs : list A) (e : error).

Lemma pending_count_replicate (n : nat) :
  pending_count (replicate n (@None A)) = n.
Proof.
  unfold pending_count. induction n as [| n IH]; [done |].
  cbn [replicate]. rewrite filter_cons_True by done.
  cbn [length]. by rewrite IH.
Qed.

Lemma pending_count_insert values (k : nat) (v : A) :
  values !! k = Some None →
  pending_count values = S (pending_count (<[k := Some v]> values)).
Proof.
  unfold pending_count. revert k.
  induction values as [| mv values IH]; intros k Hk; [done |].
  destruct k as [| k]; cbn [lookup list_lookup] in Hk;
    cbn [insert list_insert].
  - injection Hk as ->.
    rewrite filter_cons_True by done. rewrite filter_cons_False by done. done.
  - destruct mv as [v' |].
    + rewrite !filter_cons_False by done. by apply IH.
    + rewrite !filter_cons_True by done. cbn [length]. f_equal. by apply IH.
Qed.

Lemma stored_values_replicate outcomes :
  stored_values outcomes (replicate (length outcomes) None).
Proof.
  unfold stored_values. induction outcomes as [| o outcomes IH]; simpl.
  - constructor.
  - constructor; [done | apply IH].
Qed.

Lemma stored_values_insert outcomes values (k : nat) (v : A) :
  stored_values outcomes values →
  outcomes !! k = Some (Returned v) →
  stored_values outcomes (<[k := Some v]> values).
Proof.
  unfold stored_values. intros Hst. revert k.
  induction Hst as [| o mv outcomes values Ho Hst IH]; intros k Hk; [done |].
  destruct k as [| k]; simpl in *.
  - injection Hk as ->. constructor; [| done]. by intros v' [= <-].
  - constructor; [done | by apply IH].
Qed.

(** When nothing is awaited any more, the stored values are the values of
    all the input promises. *)
Lemma stored_values_complete outcomes values :
  stored_values outcomes values → pending_count values = 0%nat →
  outcomes = Returned <$> omap id values.
Proof.
  unfold stored_values, pending_count.
  induction 1 as [| o mv outcomes values Ho Hst IH]; intros Hcount; [done |].
  destruct mv as [v |].
  - rewrite filter_cons_False in Hcount by done.
    simpl. rewrite (Ho v) by done. f_equal. by apply IH.
  - by rewrite filter_cons_True in Hcount by done.
Qed.

Lemma promise_all_loop_fulfilled outcomes order values vs :
  stored_values outcomes values →
  promise_all_loop outcomes order values (pending_count values) = Fulfilled vs →
  outcomes = Returned <$> vs.
Proof.
  revert values.
  induction order as [| k order IH]; intros values Hst Hrun; [done |].
  cbn [promise_all_loop] in Hrun.
  destruct (outcomes !! k) as [[v | e] |] eqn:Ho;
    destruct (values !! k) as [[v' |] |] eqn:Hv;
    try (by eapply IH); try done.
  rewrite (pending_count_insert values k v) in Hrun by done.
  destruct (Nat.eqb_spec (S (pending_count (<[k := Some v]> values))) 1)
    as [Hlast | Hmore].
  - injection Hrun as <-.
    apply stored_values_complete; [by apply stored_values_insert | lia].
  - replace (S (pending_count (<[k := Some v]> values)) - 1)%nat
      with (pending_count (<[k := Some v]> values)) in Hrun by lia.
    eapply IH; [| done]. by apply stored_values_insert.
Qed.

Lemma promise_all_loop_rejected outcomes order values (remaining : nat) e :
  promise_all_loop outcomes order values remaining = Rejected e →
  ∃ k : nat, k ∈ order ∧ outcomes !! k = Some (Thrown e).
Proof.
  revert values remaining.
  induction order as [| k order IH]; intros values remaining Hrun; [done |].
  cbn [promise_all_loop] in Hrun.
  assert (∀ values' remaining',
            promise_all_loop outcomes order values' remaining' = Rejected e →
            ∃ k' : nat, k' ∈ k :: order ∧ outcomes !! k' = Some (Thrown e))
    as Hrest.
  { intros values' remaining' Hrun'.
    destruct (IH _ _ Hrun') as (k' & Hin & Hk'). exists k'.
    split; [by apply list_elem_of_further | done]. }
  destruct (outcomes !! k) as [[v | e'] |] eqn:Ho;
    destruct (values !! k) as [[v' |] |] eqn:Hv; try (by eapply Hrest).
  - destruct (remaining =? 1)%nat; [done | by eapply Hrest].
  - injection Hrun as <-. exists k. split; [apply list_elem_of_here | done].
Qed.

(** The first input promise to be rejected settles the result. *)
Lemma promise_all_loop_first_failure outcomes pre (k : nat) post values e :
  outcomes !! k = Some (Thrown e) →
  values !! k = Some None →
  (∀ (j : nat) e', j ∈ pre → outcomes !! j ≠ Some (Thrown e')) →
  promise_all_loop outcomes (pre ++ k :: post) values (pending_count values)
  = Rejected e.
Proof.
  intros Hk. revert values.
  induction pre as [| j pre IH]; intros values Hslot Hpre; simpl.
  - by rewrite Hk, Hslot.
  - assert (∀ (j' : nat) e', j' ∈ pre → outcomes !! j' ≠ Some (Thrown e'))
      as Hpre' by (intros j' e' Hj'; apply Hpre; by apply list_elem_of_further).
    destruct (outcomes !! j) as [[v | e'] |] eqn:Ho;
      destruct (values !! j) as [[v' |] |] eqn:Hv; try (by apply IH).
    + assert (j ≠ k) as Hjk by (intros ->; congruence).
      assert (<[j := Some v]> values !! k = Some None) as Hslot'
        by (by rewrite list_lookup_insert_ne).
      rewrite (pending_count_insert values j v) by done.
      rewrite (pending_count_insert (<[j := Some v]> values) k v) by done.
      simpl.
      rewrite <- (pending_count_insert (<[j := Some v]> values) k v) by done.
      by apply IH.
    + exfalso. eapply (Hpre j e'); [apply list_elem_of_here | done].
Qed.

Lemma pending_count_pos values :
  (0 < pending_count values)%nat → ∃ k : nat, values !! k = Some None.
Proof.
  unfold pending_count.
  induction values as [| mv values IH]; intros Hpos; [by inversion Hpos |].
  destruct mv as [v |].
  - rewrite filter_cons_False in Hpos by done.
    destruct (IH Hpos) as (k & Hk). by exists (S k).
  - by exists 0%nat.
Qed.

(** When every input promise is fulfilled and has settled, the result is
    fulfilled with their values, in the order of the inputs. *)
Lemma promise_all_loop_settled outcomes order values vs :
  outcomes = Returned <$> vs →
  stored_values outcomes values →
  (0 < pending_count values)%nat →
  (∀ k : nat, values !! k = Some None → k ∈ order) →
  promise_all_loop outcomes order values (pending_count values) = Fulfilled vs.
Proof.
  intros Hvs. revert values.
  induction order as [| k order IH]; intros values Hst Hpos Hsettle.
  - destruct (pending_count_pos values Hpos) as (k & Hk).
    by apply Hsettle, elem_of_nil in Hk.
  - assert (values !! k ≠ Some None →
            promise_all_loop outcomes order values (pending_count values)
            = Fulfilled vs) as Hskip.
    { intros Hk. apply IH; [done | done |].
      intros j Hj. apply Hsettle in Hj as Hin.
      apply elem_of_cons in Hin as [-> | Hin]; [done | done]. }
    cbn [promise_all_loop].
    destruct (outcomes !! k) as [[v | e] |] eqn:Ho.
    + destruct (values !! k) as [[v' |] |] eqn:Hv;
        [by apply Hskip | | by apply Hskip].
      rewrite (pending_count_insert values k v) by done.
      pose proof (stored_values_insert _ _ _ _ Hst Ho) as Hst'.
      destruct (Nat.eqb_spec (S (pending_count (<[k := Some v]> values))) 1)
        as [Hlast | Hmore].
      * f_equal.
        pose proof (stored_values_complete _ _ Hst' ltac:(lia)) as Hall.
        rewrite Hvs in Hall.
        by apply (inj (fmap Returned)) in Hall.
      * replace (S (pending_count (<[k := Some v]> values)) - 1)%nat
          with (pending_count (<[k := Some v]> values)) by lia.
        apply IH; [done | lia |].
        intros j Hj.
        destruct (decide (j = k)) as [-> | Hjk].
        { rewrite list_lookup_insert_eq in Hj by (by eapply lookup_lt_Some).
          done. }
        rewrite list_lookup_insert_ne in Hj by done.
        apply Hsettle in Hj as Hin.
        apply elem_of_cons in Hin as [-> | Hin]; done.
    + rewrite Hvs, list_lookup_fmap in Ho. by destruct (vs !! k).
    + destruct (values !! k) as [[v' |] |] eqn:Hv;
        [by apply Hskip | | by apply Hskip].
      apply lookup_lt_Some in Hv.
      apply lookup_ge_None in Ho.
      apply Forall2_length in Hst. lia.
Qed.
End promise_all.

(** ** The resolver (lines 41-54) *)

(** C4.  For every actor string that starts with ["did:"], the resolver
    returns that string unchanged and issues no request. *)
Theorem resolve_passthrough (net : network) (signal : AbortSignal)
    (actor : string) :
  String.prefix "did:" actor = true →
  resolve net signal actor = ([], Returned actor).
Proof. intros Hprefix. unfold resolve. by rewrite Hprefix. Qed.

(** The passthrough example of the specification. *)
Lemma resolve_passthrough_witness :
  resolve scenario_net 0%nat "did:plc:abc"
  = ([], Returned "did:plc:abc"%string).
Proof.
  apply (resolve_passthrough scenario_net 0%nat "did:plc:abc"). reflexivity.
Defined.

Lemma fetcher_calls_resolve fuel net order signal roster actor calls st :
  fetcher fuel net order signal roster actor = Some (calls, st) →
  filter (λ c, is_ResolveHandle c) calls = (resolve net signal actor).1.
Proof.
  unfold fetcher.
  destruct (resolve net signal actor) as [calls0 [did | e]] eqn:Hresolve.
  - assert (filter (λ c, is_ResolveHandle c) calls0 = calls0) as Hcalls0.
    { unfold resolve in Hresolve.
      destruct (String.prefix "did:" actor); injection Hresolve as <- _; done. }
    destruct (chunked fuel roster 30) as [[chunks | e] |]; [| | done].
    + intros [= <- _]. rewrite filter_app, Hcalls0.
      replace (filter _ (promises signal did chunks)) with (@nil call);
        [by rewrite app_nil_r |].
      unfold promises. induction chunks as [| chunk chunks IH]; [done |].
      rewrite fmap_cons, filter_cons_False by (simpl; tauto). done.
    + by intros [= <- _].
  - unfold resolve in Hresolve.
    destruct (String.prefix "did:" actor); injection Hresolve as <- _;
      by intros [= <- _].
Qed.

(** C5.  For every actor string that does not start with ["did:"], the
    resolver issues exactly one request, a handle resolution that carries
    the string as the handle, and returns the [did] of the response (or
    throws the error of the request); a run of the fetcher contains this
    handle resolution and no other. *)
Theorem resolve_delegation (net : network) (signal : AbortSignal)
    (actor : string) :
  String.prefix "did:" actor = false →
  (resolve net signal actor).1 = [ResolveHandle signal actor]
  ∧ (∀ response, resolveHandle net signal actor = Returned response →
       (resolve net signal actor).2 = Returned (did response))
  ∧ (∀ e, resolveHandle net signal actor = Thrown e →
       (resolve net signal actor).2 = Thrown e)
  ∧ (∀ fuel order roster calls st,
       fetcher fuel net order signal roster actor = Some (calls, st) →
       filter (λ c, is_ResolveHandle c) calls = [ResolveHandle signal actor]).
Proof.
  intros Hprefix.
  assert ((resolve net signal actor).1 = [ResolveHandle signal actor]) as Hcalls
    by (unfold resolve; by rewrite Hprefix).
  split; [done | split; [| split]].
  - intros response Hresponse. unfold resolve.
    by rewrite Hprefix, Hresponse.
  - intros e Hresponse. unfold resolve. by rewrite Hprefix, Hresponse.
  - intros fuel order roster calls st Hrun.
    by rewrite (fetcher_calls_resolve _ _ _ _ _ _ _ _ Hrun).
Qed.

(** The delegation example of the specification. *)
Lemma resolve_delegation_witness :
  (resolve scenario_net 0%nat "example.bsky.social").1
  = [ResolveHandle 0%nat "example.bsky.social"]
  ∧ (resolve scenario_net 0%nat "example.bsky.social").2 = Returned "did:3"%string.
Proof.
  destruct (resolve_delegation scenario_net 0%nat "example.bsky.social"
              eq_refl) as (Hcalls & Hdid & _).
  split; [exact Hcalls |].
  apply (Hdid {| did := "did:3" |}). reflexivity.
Defined.

(** ** The relationship queries (lines 56-64) *)

Lemma promises_lookup signal did chunks (k : nat) :
  promises signal did chunks !! k
  = (λ chunk, GetRelationships signal did (fst <$> chunk)) <$> chunks !! k.
Proof. unfold promises. apply list_lookup_fmap. Qed.

Lemma fetcher_issues fuel net order signal roster actor calls0 did chunks :
  resolve net signal actor = (calls0, Returned did) →
  chunked fuel roster 30 = Some (Returned chunks) →
  ∃ st, fetcher fuel net order signal roster actor
        = Some (calls0 ++ promises signal did chunks, st).
Proof.
  intros Hresolve Hchunks. unfold fetcher. rewrite Hresolve, Hchunks.
  by eexists.
Qed.

(** C6.  For every roster the fetcher issues exactly [ceil(|roster| / 30)]
    relationship queries, one per chunk that [chunked] makes of the roster
    with size 30, the [k]-th carrying the identifiers of the [k]-th block
    of 30 members as its [others]; all of them are issued whatever the
    answers and the order of settlement are.  A roster of 45 members gives
    exactly 2 queries, with 30 and 15 identifiers. *)
Theorem promises_batching (roster : list (DID * string))
    (signal : AbortSignal) (did : DID) :
  is_array roster →
  ∃ chunks : list (list (DID * string)),
    (∀ fuel : nat, (length roster < fuel)%nat →
       chunked fuel roster 30 = Some (Returned chunks))
    ∧ length (promises signal did chunks)
      = Z.to_nat ((Z.of_nat (length roster) + 29) / 30)
    ∧ (Z.of_nat (length roster)
         ≤ 30 * Z.of_nat (length (promises signal did chunks))
         < Z.of_nat (length roster) + 30)
    ∧ (∀ k : nat, (k < length (promises signal did chunks))%nat →
         promises signal did chunks !! k
         = Some (GetRelationships signal did
                   (fst <$> take 30 (drop (k * 30) roster))))
    ∧ (∀ (fuel : nat) net order actor calls0,
         (length roster < fuel)%nat →
         resolve net signal actor = (calls0, Returned did) →
         ∃ st, fetcher fuel net order signal roster actor
               = Some (calls0 ++ promises signal did chunks, st))
    ∧ (length roster = 45%nat →
         ∃ others1 others2 : list DID,
           promises signal did chunks
           = [GetRelationships signal did others1;
              GetRelationships signal did others2]
           ∧ length others1 = 30%nat ∧ length others2 = 15%nat
           ∧ others1 ++ others2 = fst <$> roster).
Proof.
  intros Harr.
  set (m := chunk_count (Z.of_nat (length roster)) 30).
  pose proof (chunk_count_le_length (Z.of_nat (length roster)) 30
                ltac:(lia) ltac:(lia)) as Hm.
  rewrite Nat2Z.id in Hm. fold m in Hm.
  assert (∀ fuel : nat, (length roster < fuel)%nat →
            chunked fuel roster 30
            = Some (Returned (nth_chunk roster 30 <$> seq 0 m))) as Hrun.
  { intros fuel Hfuel.
    rewrite (chunked_positive roster 30 fuel) by (done || lia || (fold m; lia)).
    done. }
  assert (length (promises signal did (nth_chunk roster 30 <$> seq 0 m)) = m)
    as Hlen by (unfold promises; by rewrite !length_fmap, length_seq).
  exists (nth_chunk roster 30 <$> seq 0 m).
  split; [done | split; [| split; [| split; [| split]]]].
  - rewrite Hlen. unfold m, chunk_count. do 2 f_equal. lia.
  - rewrite Hlen.
    pose proof (chunk_count_spec (Z.of_nat (length roster)) 30 m
                  ltac:(lia) ltac:(lia)) as Hlast.
    pose proof (chunk_count_spec (Z.of_nat (length roster)) 30 (m - 1)
                  ltac:(lia) ltac:(lia)) as Hprev.
    fold m in Hlast, Hprev. lia.
  - intros k Hk. rewrite Hlen in Hk.
    rewrite promises_lookup, lookup_nth_chunks by done. done.
  - intros fuel net order actor calls0 Hfuel Hresolve.
    eapply fetcher_issues; [done | by apply Hrun].
  - intros H45. unfold m, chunk_count. rewrite H45.
    change (Z.to_nat ((Z.of_nat 45 + 30 - 1) / 30)) with 2%nat.
    exists (fst <$> take 30 roster), (fst <$> drop 30 roster).
    split; [| split; [| split]].
    + cbn. unfold nth_chunk. cbn [Nat.mul Nat.add]. rewrite drop_0.
      by rewrite (take_ge (drop 30 roster)) by (rewrite length_drop; lia).
    + rewrite length_fmap, length_take. lia.
    + rewrite length_fmap, length_drop. lia.
    + by rewrite <- fmap_app, take_drop.
Qed.

(** The roster of [App] fits one query. *)
Lemma promises_batching_witness :
  ∃ chunks : list (list (DID * string)),
    (∀ fuel : nat, (length members < fuel)%nat →
       chunked fuel members 30 = Some (Returned chunks))
    ∧ length (promises 0%nat "did:plc:abc" chunks) = 1%nat.
Proof.
  destruct (promises_batching members 0%nat "did:plc:abc")
    as (chunks & Hrun & Hlen & _).
  - unfold is_array, max_array_length. simpl. lia.
  - exists chunks. split; [exact Hrun | exact Hlen].
Defined.

(** ** Aggregation (lines 66-75) *)

Lemma followed_mapper_spec (r : relation) :
  followed_mapper r
  = match r with
    | Relationship d true => Some d
    | _ => None
    end.
Proof.
  destruct r as [d [|] | type_]; unfold followed_mapper; simpl; try done.
  by rewrite andb_false_r.
Qed.

Lemma followed_mapper_Some (r : relation) (d : DID) :
  followed_mapper r = Some d ↔ is_followed_relationship r d.
Proof.
  rewrite followed_mapper_spec. unfold is_followed_relationship.
  destruct r as [d' [|] | type_]; cbn [relation_type relation_followedBy relation_did];
    intuition congruence.
Qed.

Lemma collect_ext {T R} (f g : T → option R) (l : list T) :
  (∀ x, f x = g x) → collect l f = collect l g.
Proof.
  intros Hfg. induction l as [| x l IH]; [done |].
  simpl. by rewrite Hfg, IH.
Qed.

Lemma followers_of_mapper (response : getRelationships_output) :
  followers_of response = collect (relationships response) followed_mapper.
Proof.
  unfold followers_of. apply collect_ext. intros r.
  by rewrite followed_mapper_spec.
Qed.

Lemma followed_returned (responses : list getRelationships_output)
    (result : list DID) :
  followed responses = Returned result →
  result = concat (followers_of <$> responses).
Proof.
  unfold followed. revert result.
  induction responses as [| response responses IH]; intros result Hrun;
    simpl in *.
  - by injection Hrun as <-.
  - destruct (mapDefined (relationships response) followed_mapper)
      as [ys | e] eqn:Hys; [| done].
    destruct (flatMap _ responses) as [zs | e]; [| done].
    injection Hrun as <-.
    apply mapDefined_loop_returned in Hys. simpl in Hys. subst ys.
    by rewrite followers_of_mapper, (IH zs).
Qed.

Lemma elem_of_followers (responses : list getRelationships_output) (d : DID) :
  d ∈ concat (followers_of <$> responses)
  ↔ ∃ response r,
      response ∈ responses ∧ r ∈ relationships response
      ∧ is_followed_relationship r d.
Proof.
  induction responses as [| response responses IH]; simpl.
  - split; [by intros ?%elem_of_nil |].
    by intros (? & ? & ?%elem_of_nil & _).
  - rewrite elem_of_app, IH, followers_of_mapper, collect_omap,
      list_elem_of_omap.
    setoid_rewrite followed_mapper_Some. split.
    + intros [(r & Hr & Hd) | (response' & r & Hin & Hr & Hd)].
      * exists response, r. split; [apply list_elem_of_here | done].
      * exists response', r. split; [by apply list_elem_of_further | done].
    + intros (response' & r & Hin & Hr & Hd).
      apply elem_of_cons in Hin as [-> | Hin]; [left | right]; eauto.
Qed.

Lemma fetcher_fulfilled fuel net order signal roster actor calls result :
  fetcher fuel net order signal roster actor = Some (calls, Fulfilled result) →
  ∃ calls0 did chunks responses,
    resolve net signal actor = (calls0, Returned did)
    ∧ chunked fuel roster 30 = Some (Returned chunks)
    ∧ promise_all (promise_outcomes net signal did chunks) order
      = Fulfilled responses
    ∧ followed responses = Returned result.
Proof.
  unfold fetcher.
  destruct (resolve net signal actor) as [calls0 [did | e]]; [| done].
  destruct (chunked fuel roster 30) as [[chunks | e] |]; [| done | done].
  destruct (promise_all _ order) as [| responses | e] eqn:Hall; [done | | done].
  destruct (followed responses) as [result' | e] eqn:Hfollowed; [| done].
  intros [= _ <-]. by exists calls0, did, chunks, responses.
Qed.

Lemma promise_all_fulfilled {A} (outcomes : list (completion A)) order vs :
  promise_all outcomes order = Fulfilled vs → outcomes = Returned <$> vs.
Proof.
  unfold promise_all. destruct outcomes as [| o outcomes].
  - by intros [= <-].
  - set (all := o :: outcomes). intros Hrun.
    eapply (promise_all_loop_fulfilled all order
              (replicate (length all) None)).
    + apply stored_values_replicate.
    + by rewrite pending_count_replicate.
Qed.

Lemma promise_all_first_failure {A} (outcomes : list (completion A))
    pre (k : nat) post e :
  outcomes !! k = Some (Thrown e) →
  (∀ (j : nat) e', j ∈ pre → outcomes !! j ≠ Some (Thrown e')) →
  promise_all outcomes (pre ++ k :: post) = Rejected e.
Proof.
  intros Hk Hpre. unfold promise_all.
  destruct outcomes as [| o outcomes]; [done |].
  set (all := o :: outcomes) in *.
  rewrite <- (pending_count_replicate (A := A) (length all)) at 2.
  apply promise_all_loop_first_failure; [done | | done].
  apply lookup_replicate_2. by eapply lookup_lt_Some.
Qed.

Lemma promise_all_settled {A} (outcomes : list (completion A)) order vs :
  outcomes = Returned <$> vs →
  (∀ k : nat, (k < length vs)%nat → k ∈ order) →
  promise_all outcomes order = Fulfilled vs.
Proof.
  intros Hvs Hsettle. unfold promise_all.
  destruct outcomes as [| o outcomes].
  - by destruct vs.
  - set (all := o :: outcomes) in *.
    rewrite <- (pending_count_replicate (A := A) (length all)) at 2.
    apply promise_all_loop_settled.
    + done.
    + apply stored_values_replicate.
    + rewrite pending_count_replicate. simpl. lia.
    + intros k Hk. apply Hsettle.
      apply lookup_lt_Some in Hk.
      rewrite length_replicate, Hvs, length_fmap in Hk. done.
Qed.

(** The end-to-end scenario of the specification: the lookup of
    ["carol.test"] is fulfilled with [["did:1"]], and the selector answers
    accordingly once the resource is ready. *)
Example scenario_end_to_end :
  fetcher 3%nat scenario_net [0%nat] 0%nat scenario_roster "carol.test"
  = Some ([ResolveHandle 0%nat "carol.test";
           GetRelationships 0%nat "did:3" ["did:1"; "did:2"]]%string,
          Fulfilled ["did:1"%string])
  ∧ isFollowed (Ready ["did:1"%string]) "did:1" = true
  ∧ isFollowed (Ready ["did:1"%string]) "did:2" = false.
Proof. by vm_compute. Qed.

(** C1.  For every successful lookup, the result holds exactly the
    identifiers of the entries of the batch responses that are relationship
    records (by their type discriminator) with a true followed-by flag, in
    the order of the responses; an entry of another shape and a
    relationship record whose followed-by flag is false contribute
    nothing.  The batch responses are those of the run: the answers of the
    network to the queries for the chunks of the roster, about the
    identifier the actor resolved to. *)
Theorem followed_exact fuel net order signal roster actor calls result :
  fetcher fuel net order signal roster actor = Some (calls, Fulfilled result) →
  ∃ (calls0 : list call) (did : DID) (chunks : list (list (DID * string)))
    (responses : list getRelationships_output),
    resolve net signal actor = (calls0, Returned did)
    ∧ chunked fuel roster 30 = Some (Returned chunks)
    ∧ promise_outcomes net signal did chunks = Returned <$> responses
    ∧ result
      = concat ((λ response, collect (relationships response) followed_mapper)
                  <$> responses)
    ∧ result = concat (followers_of <$> responses)
    ∧ (∀ d : DID,
         d ∈ result
         ↔ ∃ response r,
             response ∈ responses ∧ r ∈ relationships response
             ∧ relation_type r = relationship_type
             ∧ relation_followedBy r = Some true
             ∧ relation_did r = Some d)
    ∧ (∀ type_, followed_mapper (OtherRecord type_) = None)
    ∧ (∀ d, followed_mapper (Relationship d false) = None).
Proof.
  intros Hrun.
  apply fetcher_fulfilled in Hrun
    as (calls0 & did & chunks & responses & Hresolve & Hchunks & Hall
        & Hfollowed).
  apply promise_all_fulfilled in Hall.
  apply followed_returned in Hfollowed. subst result.
  exists calls0, did, chunks, responses.
  split; [done | split; [done |]].
  split; [done | split; [| split; [done | split; [| split]]]].
  - f_equal. apply list_fmap_ext. intros _ response _.
    apply followers_of_mapper.
  - intros d. apply elem_of_followers.
  - intros type_. by rewrite followed_mapper_spec.
  - intros d. by rewrite followed_mapper_spec.
Qed.

(** The scenario of the specification: only [did:1] is kept. *)
Lemma followed_exact_witness :
  ∃ (calls0 : list call) (did : DID) (chunks : list (list (DID * string)))
    (responses : list getRelationships_output),
    resolve scenario_net 0%nat "carol.test" = (calls0, Returned did)
    ∧ chunked 3 scenario_roster 30 = Some (Returned chunks)
    ∧ promise_outcomes scenario_net 0%nat did chunks = Returned <$> responses
    ∧ ["did:1"%string] = concat (followers_of <$> responses).
Proof.
  destruct (followed_exact 3%nat scenario_net [0%nat] 0%nat scenario_roster
              "carol.test"
              [ResolveHandle 0%nat "carol.test";
               GetRelationships 0%nat "did:3" ["did:1"; "did:2"]]%string
              ["did:1"%string])
    as (calls0 & did & chunks & responses & Hresolve & Hchunks & Hout & _
        & Hresult & _).
  - vm_compute. reflexivity.
  - exists calls0, did, chunks, responses.
    split; [exact Hresolve | split; [exact Hchunks |]].
    split; [exact Hout | exact Hresult].
Defined.

(** C7.  When the identifier is resolved and the roster is chunked: if any
    one relationship query fails, the fetcher never produces a result,
    whatever the order of settlement; a result is produced only when every
    query completed successfully; and the failure of the first query that
    is seen to fail becomes the failure of the whole fetcher. *)
Theorem aggregation_all_or_nothing fuel net order signal roster actor
    calls0 did chunks :
  resolve net signal actor = (calls0, Returned did) →
  chunked fuel roster 30 = Some (Returned chunks) →
  (∀ (k : nat) e,
     promise_outcomes net signal did chunks !! k = Some (Thrown e) →
     ∀ calls result,
       fetcher fuel net order signal roster actor
       ≠ Some (calls, Fulfilled result))
  ∧ (∀ calls result,
       fetcher fuel net order signal roster actor
       = Some (calls, Fulfilled result) →
       ∃ responses,
         promise_outcomes net signal did chunks = Returned <$> responses
         ∧ length responses = length chunks)
  ∧ (∀ pre (k : nat) post e,
       order = pre ++ k :: post →
       promise_outcomes net signal did chunks !! k = Some (Thrown e) →
       (∀ (j : nat) e', j ∈ pre →
          promise_outcomes net signal did chunks !! j ≠ Some (Thrown e')) →
       fetcher fuel net order signal roster actor
       = Some (calls0 ++ promises signal did chunks, Rejected e)).
Proof.
  intros Hresolve Hchunks.
  assert (∀ calls result,
            fetcher fuel net order signal roster actor
            = Some (calls, Fulfilled result) →
            ∃ responses,
              promise_outcomes net signal did chunks = Returned <$> responses
              ∧ length responses = length chunks) as Hall.
  { intros calls result Hrun.
    apply fetcher_fulfilled in Hrun
      as (calls0' & did' & chunks' & responses & Hresolve' & Hchunks' & Hall & _).
    rewrite Hresolve in Hresolve'. injection Hresolve' as <- <-.
    rewrite Hchunks in Hchunks'. injection Hchunks' as <-.
    apply promise_all_fulfilled in Hall. exists responses.
    split; [done |].
    apply (f_equal length) in Hall.
    unfold promise_outcomes in Hall.
    by rewrite length_imap, length_fmap in Hall. }
  split; [| split; [done |]].
  - intros k e Hk calls result Hrun.
    destruct (Hall _ _ Hrun) as (responses & Hout & _).
    rewrite Hout, list_lookup_fmap in Hk.
    by destruct (responses !! k).
  - intros pre k post e -> Hk Hpre. unfold fetcher.
    rewrite Hresolve, Hchunks.
    by rewrite (promise_all_first_failure _ pre k post e).
Qed.

(** A refused relationship query rejects the whole lookup. *)
Lemma aggregation_all_or_nothing_witness :
  fetcher 3%nat scenario_failing_net [0%nat] 0%nat scenario_roster "did:3"
  = Some ([GetRelationships 0%nat "did:3" ["did:1"; "did:2"]]%string,
          Rejected (XRPCError "InvalidRequest" "actor not found")).
Proof.
  destruct (aggregation_all_or_nothing 3%nat scenario_failing_net [0%nat] 0%nat
              scenario_roster "did:3" [] "did:3"
              [[("did:1", "alice"); ("did:2", "bob")]]%string
              eq_refl eq_refl) as (_ & _ & Hfirst).
  apply (Hfirst [] 0%nat []).
  - reflexivity.
  - reflexivity.
  - intros j e' Hj. by apply elem_of_nil in Hj.
Defined.

(** ** [isFollowed] *)

Lemma includes_elem_of (array : list DID) (d : DID) :
  includes array d = true ↔ d ∈ array.
Proof.
  unfold includes. rewrite existsb_exists, list_elem_of_In. split.
  - by intros (d' & Hin & ->%String.eqb_eq).
  - intros Hin. exists d. split; [done | apply String.eqb_refl].
Qed.

(** C8.  For every identifier, [isFollowed] answers [true] if and only if
    the resource is in state [ready] and the identifier is in its current
    result; in every other state (pending, refreshing, errored,
    unresolved) it answers [false] for every identifier. *)
Theorem isFollowed_ready (r : resource) (d : DID) :
  (isFollowed r d = true
   ↔ state r = ready ∧ ∃ l, latest r = Some l ∧ d ∈ l)
  ∧ (state r ≠ ready → isFollowed r d = false).
Proof.
  unfold isFollowed, isFollowed_source. split.
  - rewrite includes_elem_of.
    destruct r as [| | l | l | e]; simpl; split;
      try (by intros ?%elem_of_nil); try (by intros [[=] _]).
    + intros Hin. split; [done | by exists l].
    + by intros (_ & l' & [= <-] & Hin).
  - by destruct r.
Qed.

(** The selector in the states [ready], [refreshing], [pending] and
    [errored]. *)
Lemma isFollowed_ready_witness :
  isFollowed (Ready ["did:1"%string]) "did:1" = true
  ∧ isFollowed (Refreshing ["did:1"%string]) "did:1" = false
  ∧ isFollowed PendingResource "did:1" = false
  ∧ isFollowed (Errored (OtherError "failed")) "did:1" = false.
Proof.
  split; [| split; [| split]].
  - apply (isFollowed_ready (Ready ["did:1"%string]) "did:1").
    split; [reflexivity |]. exists ["did:1"%string].
    split; [reflexivity | apply list_elem_of_here].
  - apply (isFollowed_ready (Refreshing ["did:1"%string]) "did:1"). discriminate.
  - apply (isFollowed_ready PendingResource "did:1"). discriminate.
  - apply (isFollowed_ready (Errored (OtherError "failed")) "did:1").
    discriminate.
Defined.


(** * Further properties of the code *)

(** ** [chunked]: sizes and edge cases *)

(** X1.  With a positive size the number of chunks is the ceiling of
    [length / size], and no chunk is empty or longer than [size]. *)
Theorem chunked_chunk_sizes {T} (arr : list T) (size : Z) :
  is_array arr → 1 ≤ size →
  ∃ chunks : list (list T),
    (∀ fuel : nat, (length arr < fuel)%nat →
       chunked fuel arr size = Some (Returned chunks))
    ∧ (Z.of_nat (length arr) ≤ size * Z.of_nat (length chunks)
       < Z.of_nat (length arr) + size)
    ∧ (∀ c : list T, c ∈ chunks → 1 ≤ Z.of_nat (length c) ≤ size).
Proof.
  intros Harr Hsize.
  set (m := chunk_count (Z.of_nat (length arr)) size).
  pose proof (chunk_count_le_length (Z.of_nat (length arr)) size
                ltac:(lia) Hsize) as Hm.
  rewrite Nat2Z.id in Hm. fold m in Hm.
  exists (nth_chunk arr (Z.to_nat size) <$> seq 0 m).
  split; [| split].
  - intros fuel Hfuel. apply chunked_positive; [done | done |]. fold m. lia.
  - rewrite length_fmap, length_seq.
    pose proof (chunk_count_spec (Z.of_nat (length arr)) size m
                  ltac:(lia) Hsize) as Hlast.
    pose proof (chunk_count_spec (Z.of_nat (length arr)) size (m - 1)
                  ltac:(lia) Hsize) as Hprev.
    fold m in Hlast, Hprev. nia.
  - intros c (k & -> & Hk)%list_elem_of_fmap.
    apply elem_of_seq in Hk as [_ Hk].
    rewrite length_nth_chunk.
    assert (Z.of_nat k * size < Z.of_nat (length arr)) as Hin
      by (apply chunk_count_spec; [lia | done | by fold m]).
    nia.
Qed.

(** Seven elements in chunks of three. *)
Lemma chunked_chunk_sizes_witness :
  ∃ chunks : list (list nat),
    (∀ fuel : nat, (7 < fuel)%nat →
       chunked fuel [1; 2; 3; 4; 5; 6; 7]%nat 3 = Some (Returned chunks))
    ∧ (7 ≤ 3 * Z.of_nat (length chunks) < 7 + 3).
Proof.
  destruct (chunked_chunk_sizes [1; 2; 3; 4; 5; 6; 7]%nat 3)
    as (chunks & Hrun & Hcount & _).
  - unfold is_array, max_array_length. simpl. lia.
  - lia.
  - exists chunks. split; [exact Hrun | exact Hcount].
Defined.

(** X2.  A non-empty array that is not longer than [size] comes back as
    one chunk, the array itself. *)
Theorem chunked_single_chunk {T} (arr : list T) (size : Z) (fuel : nat) :
  arr ≠ [] → Z.of_nat (length arr) ≤ size →
  chunked (S (S fuel)) arr size = Some (Returned [arr]).
Proof.
  intros Harr Hsize.
  assert (0 < Z.of_nat (length arr)) as Hlen
    by (destruct arr; [done | cbn [length]; lia]).
  unfold chunked. cbn [chunked_loop].
  unfold chunked_step at 1. cbn [chunked_init loop_i loop_chunks].
  destruct (Z.ltb_spec 0 (Z.of_nat (length arr))); [| lia].
  rewrite push_below by (cbn [length]; unfold max_array_length; lia).
  rewrite (slice_forward arr 0 size) by lia.
  rewrite drop_0, take_ge by lia.
  unfold chunked_step. cbn [loop_i loop_chunks].
  destruct (Z.ltb_spec (0 + size) (Z.of_nat (length arr))); [lia | done].
Qed.

(** Two elements with size thirty. *)
Lemma chunked_single_chunk_witness :
  chunked 2 [1; 2]%nat 30 = Some (Returned [[1; 2]%nat]).
Proof.
  apply (chunked_single_chunk [1; 2]%nat 30 0); [discriminate | simpl; lia].
Defined.

(** X3.  What a run with a size that is not positive accumulates on a
    non-empty array: with a negative size the first chunk is the array
    without its last [-size] elements and every later chunk is empty; with
    size zero every chunk is empty. *)
Theorem chunked_nonpositive_chunks {T} (arr : list T) (size : Z)
    (st : chunked_state T) :
  arr ≠ [] → chunked_reaches arr size st →
  (size < 0 →
     loop_chunks st = []
     ∨ ∃ k : nat,
         loop_chunks st
         = take (Z.to_nat (Z.of_nat (length arr) + size)) arr :: replicate k [])
  ∧ (size = 0 → ∃ k : nat, loop_chunks st = replicate k []).
Proof.
  intros Harr Hreach.
  assert (0 < Z.of_nat (length arr)) as Hlen
    by (destruct arr; [done | cbn [length]; lia]).
  split.
  - intros Hsize.
    assert ((loop_i st = 0 ∧ loop_chunks st = [])
            ∨ (loop_i st < 0
               ∧ ∃ k : nat,
                   loop_chunks st
                   = take (Z.to_nat (Z.of_nat (length arr) + size)) arr
                     :: replicate k [])) as Hinv.
    2:{ destruct Hinv as [[_ ?] | [_ ?]]; [by left | by right]. }
    induction Hreach as [| st st' _ IH Hstep]; [by left |].
    assert (loop_i st ≤ 0) as Hi0 by (destruct IH as [[? _] | [? _]]; lia).
    rewrite chunked_step_nonpositive in Hstep by lia.
    case_decide; [| done]. injection Hstep as <-. cbn [loop_i loop_chunks].
    right. split; [lia |].
    destruct IH as [[Hi ->] | [Hi (k & ->)]].
    + exists 0%nat. rewrite Hi. cbn [app replicate]. f_equal.
      unfold slice, relative_index.
      destruct (Z.ltb_spec 0 0); [lia |].
      destruct (Z.ltb_spec (0 + size) 0); [| lia].
      rewrite Z.min_l by lia. rewrite drop_0. f_equal. lia.
    + exists (S k). rewrite slice_backward by lia.
      by rewrite replicate_S_end.
  - intros ->.
    induction Hreach as [| st st' Hreach [k IH] Hstep]; [by exists 0%nat |].
    assert (loop_i st ≤ 0) as Hi
      by (eapply chunked_reaches_nonpositive; [done | | done]; lia).
    rewrite chunked_step_nonpositive in Hstep by lia.
    case_decide; [| done]. injection Hstep as <-. cbn [loop_chunks].
    exists (S k). rewrite IH, replicate_S_end. do 2 f_equal.
    unfold slice, relative_index.
    destruct (Z.ltb_spec (loop_i st) 0), (Z.ltb_spec (loop_i st + 0) 0);
      try lia; by replace (Z.to_nat _) with 0%nat by lia.
Qed.

(** The state after two iterations on three elements with size -1. *)
Lemma chunked_nonpositive_chunks_witness :
  loop_chunks {| loop_i := -2; loop_chunks := [[1; 2]%nat; []] |} = []
  ∨ ∃ k : nat,
      loop_chunks {| loop_i := -2; loop_chunks := [[1; 2]%nat; []] |}
      = take (Z.to_nat (Z.of_nat (length [1; 2; 3]%nat) + -1)) [1; 2; 3]%nat
        :: replicate k [].
Proof.
  apply (chunked_nonpositive_chunks [1; 2; 3]%nat (-1)
           {| loop_i := -2; loop_chunks := [[1; 2]%nat; []] |}).
  - discriminate.
  - eapply reaches_step; [eapply reaches_step; [apply reaches_init |] |];
      reflexivity.
  - lia.
Defined.

(** ** [mapDefined]: composition and the case where nothing is dropped *)

Lemma collect_app {T R} (a b : list T) (f : T → option R) :
  collect (a ++ b) f = collect a f ++ collect b f.
Proof. rewrite !collect_omap. apply omap_app. Qed.

Lemma length_collect_all {T R} (l : list T) (f : T → option R) :
  length (collect l f) = length l ↔ ∀ x, x ∈ l → is_Some (f x).
Proof.
  induction l as [| x l IH].
  - split; [by intros _ x ?%elem_of_nil | done].
  - cbn [collect]. destruct (f x) as [r |] eqn:Hx.
    + cbn [length]. split.
      * intros Hlen y [-> | Hy]%elem_of_cons; [by rewrite Hx |].
        apply IH; [lia | done].
      * intros Hall. f_equal. apply IH.
        intros y Hy. apply Hall. by apply list_elem_of_further.
    + pose proof (length_collect l f). cbn [length]. split; [lia |].
      intros Hall. specialize (Hall x (list_elem_of_here _ _)).
      rewrite Hx in Hall. by destruct Hall.
Qed.

(** X4.  [mapDefined] distributes over concatenation: mapping the
    concatenation of two arrays gives the concatenation of the two
    results. *)
Theorem mapDefined_app {T R} (a b : list T) (mapper : T → option R) :
  is_array (a ++ b) →
  ∃ mapped_a mapped_b : list R,
    mapDefined a mapper = Returned mapped_a
    ∧ mapDefined b mapper = Returned mapped_b
    ∧ mapDefined (a ++ b) mapper = Returned (mapped_a ++ mapped_b).
Proof.
  unfold is_array. rewrite length_app. intros Harr.
  exists (collect a mapper), (collect b mapper). unfold mapDefined.
  rewrite !mapDefined_loop_fits by (try rewrite length_app; simpl; lia).
  by rewrite collect_app.
Qed.

(** Two halves of a list of numbers. *)
Lemma mapDefined_app_witness :
  ∃ mapped_a mapped_b : list nat,
    mapDefined [1; 2]%nat (λ n, if Nat.even n then Some n else None)
    = Returned mapped_a
    ∧ mapDefined [3; 4]%nat (λ n, if Nat.even n then Some n else None)
      = Returned mapped_b
    ∧ mapDefined ([1; 2] ++ [3; 4])%nat
                 (λ n, if Nat.even n then Some n else None)
      = Returned (mapped_a ++ mapped_b).
Proof.
  apply (mapDefined_app [1; 2]%nat [3; 4]%nat
           (λ n, if Nat.even n then Some n else None)).
  unfold is_array, max_array_length. simpl. lia.
Defined.

(** X5.  The result of [mapDefined] has the length of the input exactly
    when the mapper gave a present value on every item; when the mapper is
    [g] with all its results present, the result is the plain map of
    [g]. *)
Theorem mapDefined_keeps_all {T R} (array : list T) (mapper : T → option R) :
  is_array array →
  ∃ mapped : list R,
    mapDefined array mapper = Returned mapped
    ∧ (length mapped = length array
       ↔ ∀ item, item ∈ array → is_Some (mapper item))
    ∧ (∀ g : T → R,
         (∀ item, item ∈ array → mapper item = Some (g item)) →
         mapped = g <$> array).
Proof.
  intros Harr. exists (collect array mapper). split; [| split].
  - unfold mapDefined. by rewrite mapDefined_loop_fits.
  - apply length_collect_all.
  - intros g Hg. clear Harr.
    induction array as [| x array IH]; [done |].
    cbn [collect]. rewrite (Hg x) by apply list_elem_of_here.
    rewrite fmap_cons. f_equal. apply IH.
    intros item Hitem. apply Hg. by apply list_elem_of_further.
Qed.

(** A mapper that is present everywhere. *)
Lemma mapDefined_keeps_all_witness :
  ∃ mapped : list nat,
    mapDefined [1; 2; 3]%nat (λ n, Some (n + 1)%nat) = Returned mapped
    ∧ mapped = [2; 3; 4]%nat.
Proof.
  destruct (mapDefined_keeps_all [1; 2; 3]%nat (λ n, Some (n + 1)%nat))
    as (mapped & Hrun & _ & Hmap).
  - unfold is_array, max_array_length. simpl. lia.
  - exists mapped. split; [exact Hrun |].
    apply (Hmap (λ n, (n + 1)%nat)). reflexivity.
Defined.

(** ** The fetcher: failures, coverage of the roster, completion *)

(** X6.  When the handle resolution fails, the fetcher is rejected with
    the error of that request and issues no relationship query. *)
Theorem fetcher_resolution_failure fuel net order signal roster actor e :
  String.prefix "did:" actor = false →
  resolveHandle net signal actor = Thrown e →
  fetcher fuel net order signal roster actor
  = Some ([ResolveHandle signal actor], Rejected e).
Proof.
  intros Hprefix Hfail. unfold fetcher, resolve. by rewrite Hprefix, Hfail.
Qed.

(** X7.  When the identifier is resolved, the relationship queries cover
    the roster: the [others] lists of the queries, in order, concatenate
    to the identifiers of the roster, and every query carries between 1
    and 30 identifiers. *)
Theorem fetcher_queries_cover_roster (fuel : nat) net order signal
    (roster : list (DID * string)) actor calls0 did :
  is_array roster → (length roster < fuel)%nat →
  resolve net signal actor = (calls0, Returned did) →
  ∃ (chunks : list (list (DID * string))) st,
    fetcher fuel net order signal roster actor
    = Some (calls0
            ++ ((λ chunk : list (DID * string), GetRelationships signal did (fst <$> chunk))
                  <$> chunks),
            st)
    ∧ concat ((λ chunk : list (DID * string), fst <$> chunk) <$> chunks) = fst <$> roster
    ∧ (∀ chunk : list (DID * string), chunk ∈ chunks →
         (1 ≤ length (fst <$> chunk) ≤ 30)%nat).
Proof.
  intros Harr Hfuel Hresolve.
  set (m := chunk_count (Z.of_nat (length roster)) 30).
  pose proof (chunk_count_le_length (Z.of_nat (length roster)) 30
                ltac:(lia) ltac:(lia)) as Hm.
  rewrite Nat2Z.id in Hm. fold m in Hm.
  assert (chunked fuel roster 30
          = Some (Returned (nth_chunk roster 30 <$> seq 0 m))) as Hrun
    by (rewrite (chunked_positive roster 30 fuel)
          by (done || lia || (fold m; lia)); done).
  destruct (fetcher_issues fuel net order signal roster actor calls0 did _
              Hresolve Hrun) as [st Hst].
  exists (nth_chunk roster 30 <$> seq 0 m), st.
  split; [exact Hst | split].
  - assert (∀ chunks : list (list (DID * string)),
              concat ((λ chunk : list (DID * string), fst <$> chunk) <$> chunks)
              = fst <$> concat chunks) as Hconcat.
    { induction chunks as [| c chunks IH]; [done |].
      cbn [fmap list_fmap concat]. by rewrite fmap_app, <- IH. }
    rewrite Hconcat, concat_nth_chunks. f_equal. apply take_ge.
    destruct (decide (length roster ≤ m * 30)%nat) as [| Hlt]; [done |].
    assert (Z.of_nat m * 30 < Z.of_nat (length roster)) as Hlt' by lia.
    apply chunk_count_spec in Hlt'; [| lia | lia]. fold m in Hlt'. lia.
  - intros chunk (k & -> & Hk)%list_elem_of_fmap.
    apply elem_of_seq in Hk as [_ Hk].
    rewrite length_fmap, length_nth_chunk.
    assert (Z.of_nat k * 30 < Z.of_nat (length roster)) as Hin
      by (apply chunk_count_spec; [lia | lia | by fold m]).
    lia.
Qed.

(** The roster of [App], for an actor given by its identifier. *)
Lemma fetcher_queries_cover_roster_witness :
  ∃ (chunks : list (list (DID * string))) st,
    fetcher 17 scenario_net [] 0%nat members "did:plc:abc"
    = Some ([] ++ ((λ chunk : list (DID * string), GetRelationships 0%nat "did:plc:abc"
                               (fst <$> chunk)) <$> chunks),
            st)
    ∧ concat ((λ chunk : list (DID * string), fst <$> chunk) <$> chunks) = fst <$> members
    ∧ (∀ chunk : list (DID * string), chunk ∈ chunks → (1 ≤ length (fst <$> chunk) ≤ 30)%nat).
Proof.
  apply (fetcher_queries_cover_roster 17 scenario_net [] 0%nat members
           "did:plc:abc" [] "did:plc:abc").
  - unfold is_array, max_array_length. simpl. lia.
  - simpl. lia.
  - reflexivity.
Defined.

(** A failing handle resolution. *)
Lemma fetcher_resolution_failure_witness :
  fetcher 0
    {| resolveHandle := λ _ _, Thrown (XRPCError "InvalidRequest" "no such handle");
       getRelationships := getRelationships scenario_net |}
    [] 0%nat scenario_roster "nobody.test"
  = Some ([ResolveHandle 0%nat "nobody.test"],
          Rejected (XRPCError "InvalidRequest" "no such handle")).
Proof.
  apply (fetcher_resolution_failure 0
           {| resolveHandle := λ _ _, Thrown (XRPCError "InvalidRequest" "no such handle");
              getRelationships := getRelationships scenario_net |}
           [] 0%nat scenario_roster "nobody.test"); reflexivity.
Defined.

Lemma followed_arrays (responses : list getRelationships_output) :
  (∀ response, response ∈ responses → is_array (relationships response)) →
  followed responses = Returned (concat (followers_of <$> responses)).
Proof.
  unfold followed. induction responses as [| response responses IH];
    intros Harr; [done |].
  cbn [flatMap]. unfold mapDefined at 1.
  rewrite mapDefined_loop_fits
    by (apply (Harr response), list_elem_of_here).
  rewrite IH by (intros r Hr; by apply Harr, list_elem_of_further).
  by rewrite fmap_cons, followers_of_mapper.
Qed.

Lemma promise_all_loop_waits {A} (outcomes : list (completion A)) order
    values vs :
  promise_all_loop outcomes order values (pending_count values) = Fulfilled vs →
  ∀ k : nat, values !! k = Some None → k ∈ order.
Proof.
  revert values.
  induction order as [| k0 order IH]; intros values Hrun k Hk; [done |].
  cbn [promise_all_loop] in Hrun.
  assert (promise_all_loop outcomes order values (pending_count values)
          = Fulfilled vs → k ∈ k0 :: order) as Hskip
    by (intros Hrun'; apply list_elem_of_further; by eapply IH).
  destruct (outcomes !! k0) as [[v | e] |] eqn:Ho;
    destruct (values !! k0) as [[v' |] |] eqn:Hv; try (by apply Hskip);
    try done.
  destruct (decide (k = k0)) as [-> | Hne]; [apply list_elem_of_here |].
  apply list_elem_of_further.
  assert (<[k0 := Some v]> values !! k = Some None) as Hk'
    by (by rewrite list_lookup_insert_ne).
  rewrite (pending_count_insert values k0 v) in Hrun by done.
  pose proof (pending_count_insert _ k v Hk') as Hcount.
  destruct (Nat.eqb_spec (S (pending_count (<[k0 := Some v]> values))) 1)
    as [Hlast | Hmore]; [lia |].
  replace (S (pending_count (<[k0 := Some v]> values)) - 1)%nat
    with (pending_count (<[k0 := Some v]> values)) in Hrun by lia.
  by eapply IH.
Qed.

Lemma promise_all_waits {A} (outcomes : list (completion A)) order vs :
  promise_all outcomes order = Fulfilled vs →
  ∀ k : nat, (k < length outcomes)%nat → k ∈ order.
Proof.
  unfold promise_all. destruct outcomes as [| o outcomes].
  - intros _ k Hk. simpl in Hk. lia.
  - set (all := o :: outcomes). intros Hrun k Hk.
    rewrite <- (pending_count_replicate (A := A) (length all)) in Hrun at 2.
    eapply promise_all_loop_waits; [done |].
    by apply lookup_replicate_2.
Qed.

(** X8.  When the identifier is resolved, every relationship query
    returns an array and all of them have settled, the fetcher is
    fulfilled with the followers of the responses taken in the order of the
    queries, whatever the order in which the queries settled. *)
Theorem fetcher_completes fuel net order signal roster actor calls0 did
    chunks responses :
  resolve net signal actor = (calls0, Returned did) →
  chunked fuel roster 30 = Some (Returned chunks) →
  promise_outcomes net signal did chunks = Returned <$> responses →
  (∀ response, response ∈ responses → is_array (relationships response)) →
  (∀ k : nat, (k < length chunks)%nat → k ∈ order) →
  fetcher fuel net order signal roster actor
  = Some (calls0 ++ promises signal did chunks,
          Fulfilled (concat (followers_of <$> responses))).
Proof.
  intros Hresolve Hchunks Hout Harr Horder. unfold fetcher.
  rewrite Hresolve, Hchunks.
  rewrite (promise_all_settled _ order responses Hout).
  - by rewrite followed_arrays.
  - intros k Hk. apply Horder.
    apply (f_equal length) in Hout. unfold promise_outcomes in Hout.
    rewrite length_imap, length_fmap in Hout. lia.
Qed.

(** The scenario of the specification. *)
Lemma fetcher_completes_witness :
  fetcher 3 scenario_net [0%nat] 0%nat scenario_roster "carol.test"
  = Some ([ResolveHandle 0%nat "carol.test"]
          ++ promises 0%nat "did:3" [scenario_roster],
          Fulfilled
            (concat (followers_of
                       <$> [{| relationships :=
                                 [ Relationship "did:1" true;
                                   Relationship "did:2" false;
                                   OtherRecord
                                     "app.bsky.graph.defs#notFoundActor" ] |}]))).
Proof.
  apply (fetcher_completes 3 scenario_net [0%nat] 0%nat scenario_roster
           "carol.test" [ResolveHandle 0%nat "carol.test"] "did:3"
           [scenario_roster]).
  - reflexivity.
  - reflexivity.
  - reflexivity.
  - intros response ->%list_elem_of_singleton.
    unfold is_array, max_array_length. simpl. lia.
  - intros k Hk. simpl in Hk.
    replace k with 0%nat by lia. apply list_elem_of_here.
Defined.

(** X9.  The fetcher is fulfilled only after every relationship query has
    settled: the index of each query occurs in the order of settlement. *)
Theorem fetcher_waits_for_all fuel net order signal roster actor calls
    result :
  fetcher fuel net order signal roster actor = Some (calls, Fulfilled result) →
  ∃ chunks : list (list (DID * string)),
    chunked fuel roster 30 = Some (Returned chunks)
    ∧ ∀ k : nat, (k < length chunks)%nat → k ∈ order.
Proof.
  intros Hrun.
  apply fetcher_fulfilled in Hrun
    as (calls0 & did & chunks & responses & _ & Hchunks & Hall & _).
  exists chunks. split; [done |]. intros k Hk.
  eapply promise_all_waits; [done |].
  unfold promise_outcomes. by rewrite length_imap.
Qed.

(** The scenario of the specification: its one query has settled. *)
Lemma fetcher_waits_for_all_witness :
  ∃ chunks : list (list (DID * string)),
    chunked 3 scenario_roster 30 = Some (Returned chunks)
    ∧ ∀ k : nat, (k < length chunks)%nat → k ∈ [0%nat].
Proof.
  apply (fetcher_waits_for_all 3 scenario_net [0%nat] 0%nat scenario_roster
           "carol.test"
           [ResolveHandle 0%nat "carol.test";
            GetRelationships 0%nat "did:3" ["did:1"; "did:2"]]%string
           ["did:1"%string]).
  vm_compute. reflexivity.
Defined.

(** X10.  Every request of a run carries the signal of the run, and every
    relationship query asks about the resolved identifier; for an actor
    that starts with ["did:"] the run consists of relationship queries
    about the actor itself. *)
Theorem fetcher_requests fuel net order signal roster actor calls st :
  fetcher fuel net order signal roster actor = Some (calls, st) →
  (∀ c, c ∈ calls →
     c = ResolveHandle signal actor
     ∨ ∃ did others,
         (resolve net signal actor).2 = Returned did
         ∧ c = GetRelationships signal did others)
  ∧ (String.prefix "did:" actor = true →
     ∀ c, c ∈ calls → ∃ others, c = GetRelationships signal actor others).
Proof.
  intros Hrun.
  assert (∀ c, c ∈ calls →
            c ∈ (resolve net signal actor).1
            ∨ ∃ did others,
                (resolve net signal actor).2 = Returned did
                ∧ c = GetRelationships signal did others) as Hcalls.
  { unfold fetcher in Hrun.
    destruct (resolve net signal actor) as [calls0 [did | e]].
    - destruct (chunked fuel roster 30) as [[chunks | e] |]; [| | done].
      + injection Hrun as <- _. intros c [Hc | Hc]%elem_of_app; [by left |].
        right. unfold promises in Hc.
        apply list_elem_of_fmap in Hc as (chunk & -> & _).
        by exists did, (fst <$> chunk).
      + injection Hrun as <- _. by left.
    - injection Hrun as <- _. by left. }
  split.
  - intros c Hc. destruct (Hcalls c Hc) as [Hin | ?]; [left | by right].
    unfold resolve in Hin.
    destruct (String.prefix "did:" actor); simpl in Hin.
    + by apply elem_of_nil in Hin.
    + by apply list_elem_of_singleton in Hin.
  - intros Hprefix c Hc.
    destruct (Hcalls c Hc) as [Hin | (did & others & Hdid & ->)];
      unfold resolve in *; rewrite Hprefix in *; simpl in *.
    + by apply elem_of_nil in Hin.
    + injection Hdid as <-. by exists others.
Qed.

(** The run of the scenario for an actor given by its identifier. *)
Lemma fetcher_requests_witness :
  ∃ others,
    GetRelationships 0%nat "did:3" ["did:1"; "did:2"]%string
    = GetRelationships 0%nat "did:3" others.
Proof.
  destruct (fetcher_requests 3 scenario_net [0%nat] 0%nat scenario_roster
              "did:3"
              [GetRelationships 0%nat "did:3" ["did:1"; "did:2"]]%string
              (Fulfilled ["did:1"%string])) as [_ Hdid].
  - vm_compute. reflexivity.
  - apply Hdid; [reflexivity | apply list_elem_of_here].
Defined.

(** ** [handleSubmit] *)

Lemma replace_leading_at_other (s : string) :
  String.prefix "@" s = false → replace_leading_at s = s.
Proof.
  destruct s as [| a s]; [done |].
  destruct a as [[] [] [] [] [] [] [] []]; try done.
  simpl. by destruct s.
Qed.

(** X11.  An input typed with a leading ['@'] submits the same actor as
    the input without it (when the rest does not start with ['@'] itself),
    and an input that does not start with ['@'] is submitted unchanged;
    in every case at most the first character is removed. *)
Theorem handleSubmit_leading_at (input : string) :
  (String.prefix "@" input = false →
     handleSubmit (String "@"%char input) = handleSubmit input
     ∧ handleSubmit input = input)
  ∧ (handleSubmit input = input
     ∨ input = String "@"%char (handleSubmit input)).
Proof.
  unfold handleSubmit. split.
  - intros Hat. rewrite (replace_leading_at_other input Hat). done.
  - destruct (String.prefix "@" input) eqn:Hat.
    + right. destruct input as [| a s]; [done |].
      destruct a as [[] [] [] [] [] [] [] []]; done.
    + left. by apply replace_leading_at_other.
Qed.

(** The handle of the placeholder, typed with and without ['@']. *)
Lemma handleSubmit_leading_at_witness :
  handleSubmit "@example.bsky.social" = handleSubmit "example.bsky.social"
  ∧ handleSubmit "example.bsky.social" = "example.bsky.social"%string.
Proof.
  apply (handleSubmit_leading_at "example.bsky.social"). reflexivity.
Defined.

(** ** The rendered result *)

Lemma isFollowed_Ready (result : list DID) (d : DID) :
  isFollowed (Ready result) d = bool_decide (d ∈ result).
Proof.
  unfold isFollowed, isFollowed_source. cbn [state latest].
  destruct (includes result d) eqn:Hin.
  - apply includes_elem_of in Hin. by rewrite bool_decide_eq_true_2.
  - rewrite bool_decide_eq_false_2; [done |].
    intros Hd%includes_elem_of. congruence.
Qed.

(** X12.  The list of users is rendered exactly when an actor was
    submitted and the resource is ready; it then has one row per member,
    in the order of the roster, with the member's handle, and the row is
    flagged (and shows the check icon) exactly when the member's
    identifier is in the result of the lookup. *)
Theorem render_users to_string (members : list (DID * string)) actor r
    showing rows :
  render to_string members actor r = ViewUsers showing rows
  ↔ actor = Some showing ∧ showing ≠ ""%string
    ∧ ∃ result : list DID,
        r = Ready result
        ∧ rows
          = (λ member : DID * string,
               {| data_followed := bool_decide (member.1 ∈ result);
                  use_href := if bool_decide (member.1 ∈ result)
                              then "#ic-baseline-check"
                              else "#ic-baseline-close";
                  user_handle := member.2 |}) <$> members.
Proof.
  assert (∀ result : list DID,
            render_user (Ready result) <$> members
            = (λ member : DID * string,
                 {| data_followed := bool_decide (member.1 ∈ result);
                    use_href := if bool_decide (member.1 ∈ result)
                                then "#ic-baseline-check"
                                else "#ic-baseline-close";
                    user_handle := member.2 |}) <$> members) as Hrows.
  { intros result. apply list_fmap_ext. intros _ member _.
    unfold render_user. by rewrite isFollowed_Ready. }
  unfold render. split.
  - destruct actor as [[| a s] |]; [done | | done].
    destruct r as [| | result | result | err]; try done.
    intros [= <- <-]. split; [done | split; [done |]].
    exists result. split; [done | apply Hrows].
  - intros (-> & Hshown & result & -> & ->).
    destruct showing as [| a s]; [done |]. by rewrite Hrows.
Qed.

(** X13.  The error text is rendered exactly when an actor was submitted
    and the resource is errored; for an error of the service it is the
    message of the error, preceded by the name of the error and [": "]
    when the name is not empty. *)
Theorem render_error to_string (members : list (DID * string)) actor r text :
  (render to_string members actor r = ViewError text
   ↔ ∃ shown err,
       actor = Some shown ∧ shown ≠ ""%string ∧ r = Errored err
       ∧ text = error_text to_string err)
  ∧ (∀ name message,
       error_text to_string (XRPCError name message)
       = if decide (name = ""%string) then message
         else name +:+ ": " +:+ message).
Proof.
  split.
  - unfold render. split.
    + destruct actor as [[| a s] |]; [done | | done].
      destruct r as [| | result | result | err]; try done.
      intros [= <-]. by exists (String a s), err.
    + intros (shown & err & -> & Hshown & -> & ->).
      by destruct shown.
  - intros name message. cbn [error_text]. unfold formatXRPCError.
    by destruct name.
Qed.

(** X14.  From the lookup to the page: when the fetcher is fulfilled and
    the resource is ready with its result, the page lists every member of
    the roster, in order, and a member is flagged exactly when one of the
    batch responses of the run (the answers to the queries for the chunks
    of the roster, about the resolved identifier) holds a relationship
    record with a true followed-by flag for the member's identifier. *)
Theorem lookup_rendered fuel net order signal
    (roster : list (DID * string)) actor calls result to_string :
  actor ≠ ""%string →
  fetcher fuel net order signal roster actor = Some (calls, Fulfilled result) →
  ∃ (calls0 : list call) (did : DID) (chunks : list (list (DID * string)))
    (responses : list getRelationships_output) (rows : list user_row),
    resolve net signal actor = (calls0, Returned did)
    ∧ chunked fuel roster 30 = Some (Returned chunks)
    ∧ promise_outcomes net signal did chunks = Returned <$> responses
    ∧ render to_string roster (Some actor) (Ready result)
      = ViewUsers actor rows
    ∧ length rows = length roster
    ∧ ∀ (k : nat) (member : DID * string),
        roster !! k = Some member →
        ∃ row : user_row,
          rows !! k = Some row
          ∧ user_handle row = member.2
          ∧ (data_followed row = true
             ↔ ∃ response r,
                 response ∈ responses ∧ r ∈ relationships response
                 ∧ is_followed_relationship r member.1)
          ∧ (use_href row = "#ic-baseline-check"%string
             ↔ data_followed row = true).
Proof.
  intros Hactor Hrun.
  apply fetcher_fulfilled in Hrun
    as (calls0 & did & chunks & responses & Hresolve & Hchunks & Hall
        & Hfollowed).
  apply promise_all_fulfilled in Hall.
  apply followed_returned in Hfollowed. subst result.
  exists calls0, did, chunks, responses,
    (render_user (Ready (concat (followers_of <$> responses))) <$> roster).
  split; [done | split; [done |]].
  split; [done | split; [| split]].
  - unfold render. by destruct actor.
  - by rewrite length_fmap.
  - intros k member Hk.
    exists (render_user (Ready (concat (followers_of <$> responses))) member).
    split; [by rewrite list_lookup_fmap, Hk | split; [done | split]].
    + cbn [render_user data_followed]. rewrite isFollowed_Ready.
      rewrite bool_decide_eq_true. apply elem_of_followers.
    + cbn [render_user data_followed use_href].
      by destruct (isFollowed _ _).
Qed.

(** The scenario of the specification, from the lookup to the page. *)
Lemma lookup_rendered_witness :
  ∃ (calls0 : list call) (did : DID) (chunks : list (list (DID * string)))
    (responses : list getRelationships_output) (rows : list user_row),
    resolve scenario_net 0%nat "carol.test" = (calls0, Returned did)
    ∧ chunked 3 scenario_roster 30 = Some (Returned chunks)
    ∧ promise_outcomes scenario_net 0%nat did chunks = Returned <$> responses
    ∧ render (λ _, ""%string) scenario_roster (Some "carol.test"%string)
             (Ready ["did:1"%string])
      = ViewUsers "carol.test" rows
    ∧ length rows = 2%nat.
Proof.
  destruct (lookup_rendered 3 scenario_net [0%nat] 0%nat scenario_roster
              "carol.test"
              [ResolveHandle 0%nat "carol.test";
               GetRelationships 0%nat "did:3" ["did:1"; "did:2"]]%string
              ["did:1"%string] (λ _, ""%string))
    as (calls0 & did & chunks & responses & rows & Hresolve & Hchunks & Hout
        & Hview & Hlen & _).
  - discriminate.
  - vm_compute. reflexivity.
  - exists calls0, did, chunks, responses, rows.
    split; [exact Hresolve | split; [exact Hchunks |]].
    split; [exact Hout | split; [exact Hview | exact Hlen]].
Defined.

(** X15.  While a relationship query is outstanding and none of the
    settled ones has failed, the fetcher stays pending: all the queries
    are issued and there is neither a result nor an error yet. *)
Theorem fetcher_pending fuel net order signal roster actor calls0 did
    chunks :
  resolve net signal actor = (calls0, Returned did) →
  chunked fuel roster 30 = Some (Returned chunks) →
  (∀ (k : nat) e, k ∈ order →
     promise_outcomes net signal did chunks !! k ≠ Some (Thrown e)) →
  (∃ k : nat, (k < length chunks)%nat ∧ k ∉ order) →
  fetcher fuel net order signal roster actor
  = Some (calls0 ++ promises signal did chunks, Pending).
Proof.
  intros Hresolve Hchunks Hok (k & Hk & Hout). unfold fetcher.
  rewrite Hresolve, Hchunks.
  destruct (promise_all (promise_outcomes net signal did chunks) order)
    as [| responses | e] eqn:Hall; [done | |].
  - exfalso. apply Hout. eapply promise_all_waits; [done |].
    unfold promise_outcomes. by rewrite length_imap.
  - exfalso. unfold promise_all in Hall.
    destruct (promise_outcomes net signal did chunks) as [| o outcomes] eqn:Ho;
      [done |].
    apply promise_all_loop_rejected in Hall as (j & Hj & Hthrown).
    by apply (Hok j e).
Qed.

(** A roster of two chunks of which only the first query has settled. *)
Lemma fetcher_pending_witness :
  fetcher 3 scenario_net [0%nat] 0%nat
    (replicate 31 ("did:1", "alice")%string) "did:3"
  = Some ([] ++ promises 0%nat "did:3"
                  [replicate 30 ("did:1", "alice")%string;
                   [("did:1", "alice")%string]],
          Pending).
Proof.
  apply (fetcher_pending 3 scenario_net [0%nat] 0%nat
           (replicate 31 ("did:1", "alice")%string) "did:3" [] "did:3"
           [replicate 30 ("did:1", "alice")%string;
            [("did:1", "alice")%string]]).
  - reflexivity.
  - vm_compute. reflexivity.
  - intros k e ->%list_elem_of_singleton. discriminate.
  - exists 1%nat. split; [simpl; lia |].
    intros Hin%list_elem_of_singleton. discriminate Hin.
Defined.
